(** * Verification of the SVG3 animation engine ([src/svg3-complete.js])

    Shallow embedding of [AnimationEngine] (parseTime, registerAnimation,
    update, applySimpleAnimation, applyKeyframeAnimation, parseValues) and of
    the JavaScript primitives it relies on (parseFloat, parseInt, Math.min,
    [Map] insertion order).  JavaScript numbers are IEEE-754 doubles: they are
    modelled by Rocq's primitive 64-bit floats, whose operations are the
    round-to-nearest IEEE operations of JavaScript. *)

From Stdlib Require Import ZArith Floats String Ascii List Bool Lia.
From stdpp Require Import base gmap strings.
Import ListNotations.

Open Scope Z_scope.

(* ------------------------------------------------------------------ *)
(** ** JavaScript numbers *)

Module JS.

Local Open Scope float_scope.

(** The sign, mantissa and exponent of a decimal literal [m * 10^k],
    rounded to the nearest double (ties to even), as ECMAScript's
    StringToNumber prescribes. *)
Definition round_decimal (m k : Z) : float :=
  if (k >=? 0)%Z then
    SF2Prim (SpecFloat.binary_normalize prec emax (m * 10 ^ k) 0 false)
  else
    let d := (10 ^ (- k))%Z in
    let s := Z.max 0 (Z.log2 d - Z.log2 m + 56) in
    let q := (m * 2 ^ s / d)%Z in
    let r := (m * 2 ^ s mod d)%Z in
    (* one extra half-unit bit below [q] stands for a non-zero remainder *)
    let sticky := if (r =? 0)%Z then 0%Z else 1%Z in
    SF2Prim (SpecFloat.binary_normalize prec emax (2 * q + sticky) (- s - 1) false).

(** JavaScript's [Math.min] on two numbers. *)
Definition Math_min (x y : float) : float :=
  if is_nan x || is_nan y then nan
  else if x <? y then x
  else if y <? x then y
  else if get_sign x then x else y.

End JS.

(* ------------------------------------------------------------------ *)
(** ** Lexing helpers for [parseFloat], [parseInt] and [parseTime] *)

Module Lex.

Definition is_digit (c : ascii) : bool :=
  let n := nat_of_ascii c in (48 <=? n)%nat && (n <=? 57)%nat.

Definition digit_val (c : ascii) : Z := Z.of_nat (nat_of_ascii c) - 48.

(** ECMAScript StrWhiteSpaceChar restricted to ASCII: TAB, LF, VT, FF, CR, SP. *)
Definition is_ws (c : ascii) : bool :=
  let n := nat_of_ascii c in ((9 <=? n)%nat && (n <=? 13)%nat) || (n =? 32)%nat.

Fixpoint trim_start (s : string) : string :=
  match s with
  | String c s' => if is_ws c then trim_start s' else s
  | EmptyString => EmptyString
  end.

(** Longest prefix of digits, and the rest of the string. *)
Fixpoint span_digits (s : string) : string * string :=
  match s with
  | String c s' =>
      if is_digit c then let '(d, r) := span_digits s' in (String c d, r)
      else (EmptyString, s)
  | EmptyString => (EmptyString, EmptyString)
  end.

Fixpoint digits_value_acc (acc : Z) (s : string) : Z :=
  match s with
  | String c s' => digits_value_acc (acc * 10 + digit_val c) s'
  | EmptyString => acc
  end.

Definition digits_value (s : string) : Z := digits_value_acc 0 s.

End Lex.

(* ------------------------------------------------------------------ *)
(** ** [parseFloat] (ECMAScript 19.2.4) *)

Module ParseFloat.
Import Lex.

(** Optional exponent part [e|E (+|-)? digits]; it belongs to the literal
    only when at least one digit follows. *)
Definition exponent_part (s : string) : Z :=
  match s with
  | String c s' =>
      if (c =? "e")%char || (c =? "E")%char then
        let '(sign, body) :=
          match s' with
          | String c2 s2 =>
              if (c2 =? "+")%char then (1%Z, s2)
              else if (c2 =? "-")%char then ((-1)%Z, s2)
              else (1%Z, s')
          | EmptyString => (1%Z, s')
          end in
        let '(ds, _) := span_digits body in
        if String.eqb ds EmptyString then 0%Z else (sign * digits_value ds)%Z
      else 0%Z
  | EmptyString => 0%Z
  end.

(** The unsigned part: [Infinity] or a StrUnsignedDecimalLiteral prefix;
    [None] when no prefix is a literal (the result is then NaN). *)
Definition unsigned_prefix (s : string) : option float :=
  if String.prefix "Infinity" s then Some infinity
  else
    let '(int_digits, rest) := span_digits s in
    let '(frac_digits, rest') :=
      match rest with
      | String c r => if (c =? ".")%char then span_digits r else (EmptyString, rest)
      | EmptyString => (EmptyString, rest)
      end in
    if String.eqb int_digits EmptyString && String.eqb frac_digits EmptyString
    then None
    else
      let m := digits_value (int_digits ++ frac_digits) in
      let k := (exponent_part rest' - Z.of_nat (String.length frac_digits))%Z in
      Some (JS.round_decimal m k).

Definition parseFloat (s : string) : float :=
  let t := trim_start s in
  let '(neg, body) :=
    match t with
    | String c r =>
        if (c =? "-")%char then (true, r)
        else if (c =? "+")%char then (false, r)
        else (false, t)
    | EmptyString => (false, t)
    end in
  match unsigned_prefix body with
  | Some x => if neg then (- x)%float else x
  | None => nan
  end.

End ParseFloat.

(* ------------------------------------------------------------------ *)
(** ** [parseInt] with no radix (ECMAScript 19.2.5)

    The result is the mathematical integer of the digit prefix ([None] for
    NaN); the engine only compares it with 1 and decrements it, and repeat
    counts are kept exact (the double rounding above 2^53 is not modelled). *)

Module ParseInt.
Import Lex.

Definition hex_val (c : ascii) : option Z :=
  let n := nat_of_ascii c in
  if is_digit c then Some (digit_val c)
  else if ((97 <=? n)%nat && (n <=? 102)%nat) then Some (Z.of_nat n - 87)
  else if ((65 <=? n)%nat && (n <=? 70)%nat) then Some (Z.of_nat n - 55)
  else None.

(** Longest prefix of hexadecimal digits: its value and its length. *)
Fixpoint hex_prefix_acc (acc : Z) (len : nat) (s : string) : Z * nat :=
  match s with
  | String c s' =>
      match hex_val c with
      | Some v => hex_prefix_acc (acc * 16 + v) (S len) s'
      | None => (acc, len)
      end
  | EmptyString => (acc, len)
  end.

Definition parseInt (s : string) : option Z :=
  let t := trim_start s in
  let '(sign, body) :=
    match t with
    | String c r =>
        if (c =? "-")%char then ((-1)%Z, r)
        else if (c =? "+")%char then (1%Z, r)
        else (1%Z, t)
    | EmptyString => (1%Z, t)
    end in
  let hex_body :=
    match body with
    | String "0" (String x r) =>
        if (x =? "x")%char || (x =? "X")%char then Some r else None
    | _ => None
    end in
  match hex_body with
  | Some r =>
      let '(v, len) := hex_prefix_acc 0 0 r in
      if (len =? 0)%nat then None else Some (sign * v)%Z
  | None =>
      let '(ds, _) := span_digits body in
      if String.eqb ds EmptyString then None else Some (sign * digits_value ds)%Z
  end.

End ParseInt.

(* ------------------------------------------------------------------ *)
(** ** The animation engine *)

Module Engine.
Import Lex ParseFloat ParseInt.
Local Open Scope float_scope.

(** [parseTime]: [timeStr.match(/^([\d.]+)(s|ms)?$/)].  The classes [\d.]
    and [s], [m] are disjoint, so a match is the longest prefix of digits and
    dots, non-empty, followed by nothing, by [s] or by [ms]. *)
Fixpoint span_time_body (s : string) : string * string :=
  match s with
  | String c s' =>
      if is_digit c || (c =? ".")%char then
        let '(b, r) := span_time_body s' in (String c b, r)
      else (EmptyString, s)
  | EmptyString => (EmptyString, EmptyString)
  end.

Definition time_match (s : string) : option (string * option string) :=
  let '(body, rest) := span_time_body s in
  if String.eqb body EmptyString then None
  else if String.eqb rest EmptyString then Some (body, None)
  else if String.eqb rest "s" then Some (body, Some "s"%string)
  else if String.eqb rest "ms" then Some (body, Some "ms"%string)
  else None.

Definition parseTime (timeStr : string) : float :=
  match time_match timeStr with
  | None => 0
  | Some (body, unit) =>
      let value := parseFloat body in
      let unit := match unit with Some u => u | None => "s"%string end in
      if String.eqb unit "ms" then value / 1000 else value
  end.

(** [parseValues]: a non-string ([null] or [undefined]) gives [[]];
    otherwise [valueStr.split(',').map(v => parseFloat(v.trim()))]
    ([parseFloat] ignores what follows its literal, so trimming the end
    changes nothing). *)
Fixpoint split_on (sep : ascii) (s : string) : list string :=
  match s with
  | EmptyString => [EmptyString]
  | String c s' =>
      if (c =? sep)%char then EmptyString :: split_on sep s'
      else match split_on sep s' with
           | w :: ws => String c w :: ws
           | [] => [String c EmptyString]
           end
  end.

Definition parseValues (valueStr : option string) : list float :=
  match valueStr with
  | None => []
  | Some s => map parseFloat (split_on "," s)
  end.

(** [repeatCount] starts as the attribute string and becomes a number once
    it has been decremented. *)
Inductive repeat_count :=
| RStr (s : string)
| RNum (n : Z).

Definition repeat_parseInt (r : repeat_count) : option Z :=
  match r with
  | RStr s => parseInt s
  | RNum n => Some n
  end.

Definition repeat_is_indefinite (r : repeat_count) : bool :=
  match r with
  | RStr s => String.eqb s "indefinite"
  | RNum _ => false
  end.

(** The [animationData] object built by [SVG3Parser.parseAnimations]. *)
Record animation_data := {
  ad_attributeName : string;
  ad_from : option string;
  ad_to : option string;
  ad_dur : string;
  ad_begin : string;
  ad_end : option string;
  ad_repeatCount : string;
  ad_fill : string;
  ad_values : option (list string);
  ad_keyTimes : option (list float);
}.

(** A scene node: its properties by path; a property value is the array
    the engine writes. *)
Abbreviation node := (gmap string (list float)).
Abbreviation registry := (gmap string node).

(** One entry of [activeAnimations]: [{targetId, ...animationData, ...}]. *)
Record anim := {
  targetId : string;
  attributeName : string;
  from : option string;
  to : option string;
  dur : string;
  begin : string;
  fill : string;
  values : option (list string);
  keyTimes : option (list float);
  startTime : float;
  duration : float;
  endTime : option float;
  repeatCount : repeat_count;
  startValue : option (list float);
  isActive : bool;
  hasStarted : bool;
  elapsed : float;
}.

Record engine := {
  clock_time : float;
  clock_delta : float;
  activeAnimations : list (string * anim);
}.

(** [new AnimationEngine()]. *)
Definition init : engine :=
  {| clock_time := 0; clock_delta := 0; activeAnimations := [] |}.

(** [Map.prototype.set]: an existing key keeps its place in the insertion
    order and gets the new value; a new key goes last. *)
Fixpoint map_set (k : string) (v : anim) (m : list (string * anim)) : list (string * anim) :=
  match m with
  | [] => [(k, v)]
  | (k', v') :: m' => if String.eqb k k' then (k, v) :: m' else (k', v') :: map_set k v m'
  end.

Fixpoint map_get (k : string) (m : list (string * anim)) : option anim :=
  match m with
  | [] => None
  | (k', v') :: m' => if String.eqb k k' then Some v' else map_get k m'
  end.

(** [`${targetId}-${animationData.attributeName}`] *)
Definition anim_key (targetId attributeName : string) : string :=
  targetId ++ "-" ++ attributeName.

Definition fresh_anim (tid : string) (d : animation_data) : anim :=
  {| targetId := tid;
     attributeName := ad_attributeName d;
     from := ad_from d;
     to := ad_to d;
     dur := ad_dur d;
     begin := ad_begin d;
     fill := ad_fill d;
     values := ad_values d;
     keyTimes := ad_keyTimes d;
     startTime := parseTime (ad_begin d);
     duration := parseTime (ad_dur d);
     endTime := match ad_end d with
                | Some e => if String.eqb e "" then None else Some (parseTime e)
                | None => None
                end;
     repeatCount := RStr (ad_repeatCount d);
     startValue := None;
     isActive := false;
     hasStarted := false;
     elapsed := 0 |}.

Definition registerAnimation (e : engine) (tid : string) (d : animation_data) : engine :=
  {| clock_time := clock_time e;
     clock_delta := clock_delta e;
     activeAnimations :=
       map_set (anim_key tid (ad_attributeName d)) (fresh_anim tid d) (activeAnimations e) |}.

(** Property access on a node ([getPropertyValue] / [setPropertyValue]);
    the property path is the key of the node's property table. *)
Definition getPropertyValue (obj : node) (propName : string) : option (list float) :=
  obj !! propName.

Definition setPropertyValue (obj : node) (propName : string) (value : list float) : node :=
  <[propName := value]> obj.

(** [arr[i]] for an integer index: [undefined] ([None]) out of range. *)
Definition js_nth {A} (l : list A) (i : Z) : option A :=
  if (i <? 0)%Z then None else nth_error l (Z.to_nat i).

(** A number read from [arr[i]]: [undefined] becomes NaN in arithmetic. *)
Definition num_of (o : option float) : float :=
  match o with Some x => x | None => nan end.

Definition simple_value (a : anim) (progress : float) : list float :=
  let fromValues := parseValues (from a) in
  let toValues := parseValues (to a) in
  imap (fun i f => let t := num_of (nth_error toValues i) in f + (t - f) * progress)
       fromValues.

Definition applySimpleAnimation (obj : node) (a : anim) (progress : float) : node :=
  setPropertyValue obj (attributeName a) (simple_value a progress).

(** [for (let i = 0; i < keyTimes.length; i++) if (keyTimes[i] <= progress) keyIndex = i;] *)
Fixpoint find_key_index (kts : list float) (progress : float) (i acc : Z) : Z :=
  match kts with
  | [] => acc
  | kt :: kts' => find_key_index kts' progress (i + 1) (if kt <=? progress then i else acc)
  end.

Definition keyframe_value (vals : list string) (kts : list float) (progress : float) : list float :=
  let keyIndex := find_key_index kts progress 0 0 in
  let nextKeyIndex := Z.min (keyIndex + 1) (Z.of_nat (length kts) - 1) in
  let keyProgress :=
    (progress - num_of (js_nth kts keyIndex)) /
    (num_of (js_nth kts nextKeyIndex) - num_of (js_nth kts keyIndex)) in
  let currentValues := parseValues (js_nth vals keyIndex) in
  let nextValues := parseValues (js_nth vals nextKeyIndex) in
  imap (fun i curr => let next := num_of (nth_error nextValues i) in
                      curr + (next - curr) * keyProgress)
       currentValues.

Definition applyKeyframeAnimation (obj : node) (a : anim) (vals : list string)
    (kts : list float) (progress : float) : node :=
  setPropertyValue obj (attributeName a) (keyframe_value vals kts progress).

(** The value a track writes at [progress]: keyframe mode when both [values]
    and [keyTimes] are present, simple mode otherwise. *)
Definition apply_anim (obj : node) (a : anim) (progress : float) : node :=
  match values a, keyTimes a with
  | Some vals, Some kts => applyKeyframeAnimation obj a vals kts progress
  | _, _ => applySimpleAnimation obj a progress
  end.

(** Field assignments on a track object. *)
Definition set_started (a : anim) (sv : option (list float)) : anim :=
  {| targetId := targetId a; attributeName := attributeName a; from := from a;
     to := to a; dur := dur a; begin := begin a; fill := fill a;
     values := values a; keyTimes := keyTimes a; startTime := startTime a;
     duration := duration a; endTime := endTime a; repeatCount := repeatCount a;
     startValue := sv; isActive := true; hasStarted := true; elapsed := elapsed a |}.

Definition set_timing (a : anim) (rc : repeat_count) (active started : bool)
    (el : float) : anim :=
  {| targetId := targetId a; attributeName := attributeName a; from := from a;
     to := to a; dur := dur a; begin := begin a; fill := fill a;
     values := values a; keyTimes := keyTimes a; startTime := startTime a;
     duration := duration a; endTime := endTime a; repeatCount := rc;
     startValue := startValue a; isActive := active; hasStarted := started;
     elapsed := el |}.

(** The end-of-cycle check, [if (progress >= 1) { ... }]. *)
Definition end_of_cycle (a : anim) (progress : float) : anim :=
  if 1 <=? progress then
    if repeat_is_indefinite (repeatCount a) then
      set_timing a (repeatCount a) (isActive a) false 0
    else match repeat_parseInt (repeatCount a) with
         | Some n =>
             if (1 <? n)%Z then set_timing a (RNum (n - 1)) (isActive a) false 0
             else set_timing a (repeatCount a) false (hasStarted a) (elapsed a)
         | None => set_timing a (repeatCount a) false (hasStarted a) (elapsed a)
         end
  else a.

Definition progress_at (time : float) (a : anim) : float :=
  JS.Math_min ((time - startTime a) / duration a) 1.

(** The body of [this.activeAnimations.forEach(...)] for one track, at
    clock time [time]; the registry is threaded since the node objects it
    holds are mutated in place. *)
Definition update_anim (time : float) (a : anim) (objects : registry) : anim * registry :=
  match objects !! targetId a with
  | None => (a, objects)
  | Some obj =>
      let a1 :=
        if negb (hasStarted a) && (startTime a <=? time)
        then set_started a (getPropertyValue obj (attributeName a))
        else a in
      if isActive a1 then
        let el := time - startTime a1 in
        let progress := JS.Math_min (el / duration a1) 1 in
        let obj' := apply_anim obj a1 progress in
        let a2 := set_timing a1 (repeatCount a1) (isActive a1) (hasStarted a1) el in
        (end_of_cycle a2 progress, <[targetId a := obj']> objects)
      else (a1, objects)
  end.

Fixpoint update_all (time : float) (m : list (string * anim)) (objects : registry)
    : list (string * anim) * registry :=
  match m with
  | [] => ([], objects)
  | (k, a) :: m' =>
      let '(a', objects1) := update_anim time a objects in
      let '(m'', objects2) := update_all time m' objects1 in
      ((k, a') :: m'', objects2)
  end.

(** [update(deltaTime, objects)]. *)
Definition update (deltaTime : float) (e : engine) (objects : registry) : engine * registry :=
  let time := clock_time e + deltaTime in
  let '(m', objects') := update_all time (activeAnimations e) objects in
  ({| clock_time := time; clock_delta := deltaTime; activeAnimations := m' |}, objects').

(** A sequence of [update] calls. *)
Fixpoint run (deltas : list float) (e : engine) (objects : registry) : engine * registry :=
  match deltas with
  | [] => (e, objects)
  | d :: ds => let '(e', objects') := update d e objects in run ds e' objects'
  end.

(** Engine states reachable from [new AnimationEngine()] through
    [registerAnimation] and [update] calls. *)
Inductive reachable : engine -> Prop :=
| reach_init : reachable init
| reach_register e tid d : reachable e -> reachable (registerAnimation e tid d)
| reach_update e d objects : reachable e -> reachable (fst (update d e objects)).

(** Views of a track used in the proofs: the pair it animates, the value it
    computes at a progress, the value it writes at clock [time] when its
    target exists, and a property cell of the registry. *)
Definition anim_pair (a : anim) : string * string := (targetId a, attributeName a).

Definition anim_value (a : anim) (progress : float) : list float :=
  match values a, keyTimes a with
  | Some vals, Some kts => keyframe_value vals kts progress
  | _, _ => simple_value a progress
  end.

Definition anim_write (time : float) (a : anim) : option (list float) :=
  if (negb (hasStarted a) && (startTime a <=? time)) || isActive a
  then Some (anim_value a (progress_at time a))
  else None.

Definition cell (objects : registry) (tid attr : string) : option (list float) :=
  objects !! tid ≫= fun obj => obj !! attr.

(** The shape of [activeAnimations]: keys are distinct (a [Map]) and each
    entry sits under the key of its own target and attribute. *)
Definition keyed (m : list (string * anim)) : Prop :=
  List.NoDup (map fst m) /\
  forall k a, In (k, a) m -> k = anim_key (targetId a) (attributeName a).

End Engine.

(* ------------------------------------------------------------------ *)
(** ** Concrete tracks and scenes *)

Module Scenario.
Import Engine.
Local Open Scope string_scope.

Definition data (attr : string) (fr t : option string) (d rc : string)
    (vals : option (list string)) (kts : option (list float)) : animation_data :=
  {| ad_attributeName := attr; ad_from := fr; ad_to := t; ad_dur := d;
     ad_begin := "0s"; ad_end := None; ad_repeatCount := rc; ad_fill := "freeze";
     ad_values := vals; ad_keyTimes := kts |}.

(** [<animate attributeName="rotation" from="0,0,0" to="0,6.28,0" dur="8s"
    repeatCount="indefinite"/>] on the node [cube]. *)
Definition spin : animation_data :=
  data "rotation" (Some "0,0,0") (Some "0,6.28,0") "8s" "indefinite" None None.

Definition cube_scene : registry :=
  <["cube" := <["rotation" := [0; 0; 0]%float]> ∅]> ∅.

Definition spin_engine : engine := registerAnimation init "cube" spin.

Definition cube_rotation (st : engine * registry) : option (list float) :=
  cell (snd st) "cube" "rotation".

(** A one-component track [from="0" to="8" dur="1s" repeatCount="3"] on
    property [x] of node [n]. *)
Definition ramp (rc d : string) : animation_data :=
  data "x" (Some "0") (Some "8") d rc None None.

Definition n_scene : registry := <["n" := <["x" := [0%float]]> ∅]> ∅.

Definition n_x (st : engine * registry) : option (list float) := cell (snd st) "n" "x".

Definition ramp_state (st : engine * registry) : option (bool * bool * repeat_count) :=
  option_map (fun a => (isActive a, hasStarted a, repeatCount a))
    (map_get "n-x" (activeAnimations (fst st))).

(** A simple track interpolating from 100 to 0.1. *)
Definition shrink_data : animation_data :=
  data "x" (Some "100") (Some "0.1") "1s" "1" None None.

Definition shrink : anim := fresh_anim "n" shrink_data.

(** A keyframe track with [values="0;1"] and [keyTimes="0;1"]. *)
Definition two_keys : anim :=
  fresh_anim "n" (data "x" None None "1s" "1" (Some ["0"; "1"]) (Some [0; 1]%float)).

(** The keyframe track [values="0,0,0;0,2,0;0,0,0"], [keyTimes="0;0.5;1"],
    [dur="3s"] on [position]. *)
Definition bounce : anim :=
  fresh_anim "n" (data "position" None None "3s" "1"
                   (Some ["0,0,0"; "0,2,0"; "0,0,0"]) (Some [0; 0.5; 1]%float)).

(** A track whose [from] and [to] have different lengths. *)
Definition mismatched : animation_data :=
  data "position" (Some "0,0,0") (Some "1,1") "1s" "1" None None.

End Scenario.

(* ------------------------------------------------------------------ *)
(** ** [SVG3Parser]: attribute tables, animation elements, metadata *)

Module Parser.
Import ParseFloat Engine.
Local Open Scope string_scope.
Local Set Warnings "-register-all".

(** The JavaScript values the parser stores and the renderer reads back:
    [undefined], numbers, strings, booleans and arrays of numbers. *)
Inductive jsval :=
| JUndef
| JNum (x : float)
| JStr (s : string)
| JBool (b : bool)
| JArr (xs : list jsval).

(** ToBoolean: [undefined], [0], [-0], [NaN] and [''] are falsy. *)
Definition truthy (v : jsval) : bool :=
  match v with
  | JUndef => false
  | JNum x => negb (is_nan x) && negb (x =? 0)%float
  | JStr s => negb (String.eqb s "")
  | JBool b => b
  | JArr _ => true
  end.

(** [a || b] *)
Definition js_or (a b : jsval) : jsval := if truthy a then a else b.

(** [attrs.name] on a plain object built by [parseAttributes]: [undefined]
    when the key is absent (none of the names the code reads is a property
    of [Object.prototype]). *)
Definition prop (attrs : gmap string jsval) (name : string) : jsval :=
  match attrs !! name with Some v => v | None => JUndef end.

(** [obj[name] = value] on a plain object: the key [__proto__] is the
    prototype setter, which ignores the primitive values stored here. *)
Definition obj_set {A} (obj : gmap string A) (name : string) (v : A) : gmap string A :=
  if String.eqb name "__proto__" then obj else <[name := v]> obj.

(** [Array.prototype.includes] on a list of strings. *)
Definition includes (l : list string) (s : string) : bool := existsb (String.eqb s) l.

Definition vector_attrs : list string := ["position"; "rotation"; "scale"].

Definition number_attrs : list string :=
  ["fov"; "aspect"; "near"; "far"; "intensity"; "metalness";
   "roughness"; "emissiveIntensity"; "shininess"; "opacity"].

Definition bool_attrs : list string := ["castShadow"; "receiveShadow"; "bevelEnabled"].

(** The value [parseAttributes] stores for one attribute
    ([value.split(',').map(v => parseFloat(v.trim()))] for a vector:
    [parseFloat] skips leading white space and ignores what follows its
    literal, so the trimming changes nothing). *)
Definition parseAttribute (name value : string) : jsval :=
  if includes vector_attrs name then JArr (map (fun v => JNum (parseFloat v)) (split_on "," value))
  else if includes number_attrs name then JNum (parseFloat value)
  else if includes bool_attrs name then JBool (String.eqb value "true")
  else JStr value.

(** [parseAttributes(el)]: the element's attributes ([Array.from(el.attributes)],
    as (name, value) pairs in attribute order) folded into a plain object. *)
Definition parseAttributes (attributes : list (string * string)) : gmap string jsval :=
  fold_left (fun attrs nv => obj_set attrs nv.1 (parseAttribute nv.1 nv.2)) attributes ∅.

(** An XML element as the parser reads it: its tag name and attributes. *)
Record element := {
  tagName : string;
  el_attributes : list (string * string);
}.

(** [el.getAttribute(name)]: [null] ([None]) when absent. *)
Definition getAttribute (el : element) (name : string) : option string :=
  match List.find (fun nv => String.eqb nv.1 name) (el_attributes el) with
  | Some nv => Some nv.2
  | None => None
  end.

(** [el.id]: the [id] attribute, [''] when absent. *)
Definition el_id (el : element) : string :=
  match getAttribute el "id" with Some s => s | None => "" end.

(** [el.getAttribute(name) || dflt] *)
Definition attr_or (o : option string) (dflt : string) : string :=
  match o with
  | Some s => if String.eqb s "" then dflt else s
  | None => dflt
  end.

(** The object [parseAnimations] builds for one animation element. *)
Record parsed_animation := {
  pa_type : string;
  pa_attributeName : option string;
  pa_from : option string;
  pa_to : option string;
  pa_dur : string;
  pa_begin : string;
  pa_end : option string;
  pa_repeatCount : string;
  pa_fill : string;
  pa_values : option (list string);
  pa_keyTimes : option (list float);
}.

Definition parseAnimation (anim : element) : parsed_animation :=
  {| pa_type := tagName anim;
     pa_attributeName := getAttribute anim "attributeName";
     pa_from := getAttribute anim "from";
     pa_to := getAttribute anim "to";
     pa_dur := attr_or (getAttribute anim "dur") "1s";
     pa_begin := attr_or (getAttribute anim "begin") "0s";
     pa_end := getAttribute anim "end";
     pa_repeatCount := attr_or (getAttribute anim "repeatCount") "1";
     pa_fill := attr_or (getAttribute anim "fill") "freeze";
     pa_values := option_map (split_on ";") (getAttribute anim "values");
     pa_keyTimes :=
       option_map (fun s => map parseFloat (split_on ";" s)) (getAttribute anim "keyTimes") |}.

(** [:scope > animate, :scope > animateTransform, :scope > set] *)
Definition is_animation_tag (t : string) : bool :=
  includes ["animate"; "animateTransform"; "set"] t.

(** The [forEach] body over the selected children: each parsed animation is
    pushed onto the returned list and, with the element's id, onto the
    parser's [animationTracks]. *)
Fixpoint parseAnimations_loop (targetId : string) (anims : list element)
    (animations : list parsed_animation) (tracks : list (string * parsed_animation))
    : list parsed_animation * list (string * parsed_animation) :=
  match anims with
  | [] => (animations, tracks)
  | anim :: anims' =>
      let a := parseAnimation anim in
      parseAnimations_loop targetId anims' (animations ++ [a]) (tracks ++ [(targetId, a)])
  end.

(** [parseAnimations(el)], given the element's id, its child elements in
    document order and the parser's [animationTracks]. *)
Definition parseAnimations (id : string) (children : list element)
    (animationTracks : list (string * parsed_animation))
    : list parsed_animation * list (string * parsed_animation) :=
  parseAnimations_loop id (List.filter (fun c => is_animation_tag (tagName c)) children)
    [] animationTracks.

(** [parseMetadata(root)], given [root.querySelector('metadata')] as the
    (tag name, text content) pairs of its descendants in document order
    ([querySelectorAll('*')]), or [None] when there is no such element. *)
Definition parseMetadata (metadata : option (list (string * string))) : gmap string string :=
  match metadata with
  | None => ∅
  | Some els => fold_left (fun result te => obj_set result te.1 te.2) els ∅
  end.

End Parser.

(* ------------------------------------------------------------------ *)
(** ** [SVG3ThreeRenderer]: what it builds from the parsed scene.  Each
    Three.js constructor call is recorded with the arguments the code passes,
    and each object with the fields the code assigns. *)

Module Renderer.
Import ParseFloat Engine Parser.
Local Open Scope string_scope.
Local Set Warnings "-register-all".

(** A numeric literal of the source. *)
Definition lit (s : string) : jsval := JNum (parseFloat s).

(** [v === s] for a string [s]. *)
Definition is_str (v : jsval) (s : string) : bool :=
  match v with JStr t => String.eqb t s | _ => false end.

(** [o === s] for a value read with [getAttribute]. *)
Definition opt_is (o : option string) (s : string) : bool :=
  match o with Some t => String.eqb t s | None => false end.

Inductive geometry :=
| BoxGeometry (width height depth : jsval)
| SphereGeometry (radius widthSegments heightSegments : jsval)
| CylinderGeometry (radiusTop radiusBottom height radialSegments heightSegments : jsval)
| PlaneGeometry (width height : jsval)
| TorusGeometry (radius tube radialSegments tubularSegments : jsval).

(** One entry of [defs.geometries]: [{id, type: getAttribute('type'), params}]. *)
Record geometry_def := {
  geom_id : string;
  geom_type : option string;
  geom_params : gmap string jsval;
}.

Definition parseGeometry (geom : element) : geometry_def :=
  {| geom_id := el_id geom; geom_type := getAttribute geom "type";
     geom_params := parseAttributes (el_attributes geom) |}.

(** The [switch (geom.type)] of [buildGeometries]. *)
Definition buildGeometry (type : option string) (p : gmap string jsval) : geometry :=
  if opt_is type "box" then
    BoxGeometry (js_or (prop p "width") (lit "1")) (js_or (prop p "height") (lit "1"))
      (js_or (prop p "depth") (lit "1"))
  else if opt_is type "sphere" then
    SphereGeometry (js_or (prop p "radius") (lit "1"))
      (js_or (prop p "widthSegments") (lit "32")) (js_or (prop p "heightSegments") (lit "32"))
  else if opt_is type "cylinder" then
    CylinderGeometry (js_or (prop p "radiusTop") (lit "1"))
      (js_or (prop p "radiusBottom") (lit "1")) (js_or (prop p "height") (lit "2"))
      (js_or (prop p "radialSegments") (lit "32")) (js_or (prop p "heightSegments") (lit "1"))
  else if opt_is type "plane" then
    PlaneGeometry (js_or (prop p "width") (lit "1")) (js_or (prop p "height") (lit "1"))
  else if opt_is type "torus" then
    TorusGeometry (js_or (prop p "radius") (lit "1")) (js_or (prop p "tube") (lit "0.4"))
      (js_or (prop p "radialSegments") (lit "16")) (js_or (prop p "tubularSegments") (lit "100"))
  else BoxGeometry (lit "1") (lit "1") (lit "1").

(** [buildGeometries]: [this.geometries.set(geom.id, geometry)] in order. *)
Definition buildGeometries (geometries : gmap string geometry) (defs : list geometry_def)
    : gmap string geometry :=
  fold_left (fun m g => <[geom_id g := buildGeometry (geom_type g) (geom_params g)]> m)
    defs geometries.

Inductive material :=
| MeshStandardMaterial (color metalness roughness emissive emissiveIntensity : jsval)
| MeshLambertMaterial (color emissive : jsval)
| MeshPhongMaterial (color emissive shininess : jsval)
| MeshBasicMaterial (color : jsval).

(** One entry of [defs.materials]:
    [{id, type: getAttribute('type') || 'standard', params}]. *)
Record material_def := {
  mat_id : string;
  mat_type : string;
  mat_params : gmap string jsval;
}.

Definition parseMaterial (mat : element) : material_def :=
  {| mat_id := el_id mat; mat_type := attr_or (getAttribute mat "type") "standard";
     mat_params := parseAttributes (el_attributes mat) |}.

(** The [switch (mat.type)] of [buildMaterials] ([0xffffff] = 16777215). *)
Definition buildMaterial (type : string) (p : gmap string jsval) : material :=
  if String.eqb type "standard" then
    MeshStandardMaterial (js_or (prop p "color") (lit "16777215"))
      (js_or (prop p "metalness") (lit "0")) (js_or (prop p "roughness") (lit "0.5"))
      (js_or (prop p "emissive") (lit "0")) (js_or (prop p "emissiveIntensity") (lit "0"))
  else if String.eqb type "lambert" then
    MeshLambertMaterial (js_or (prop p "color") (lit "16777215")) (js_or (prop p "emissive") (lit "0"))
  else if String.eqb type "phong" then
    MeshPhongMaterial (js_or (prop p "color") (lit "16777215")) (js_or (prop p "emissive") (lit "0"))
      (js_or (prop p "shininess") (lit "100"))
  else MeshBasicMaterial (js_or (prop p "color") (lit "16777215")).

Definition buildMaterials (materials : gmap string material) (defs : list material_def)
    : gmap string material :=
  fold_left (fun m d => <[mat_id d := buildMaterial (mat_type d) (mat_params d)]> m)
    defs materials.

Inductive light_kind := DirectionalLight | PointLight | SpotLight | AmbientLight.

(** A light: the constructor and its arguments, and the fields the code
    assigns afterwards ([None] when it assigns none). *)
Record light := {
  light_ctor : light_kind;
  light_color : jsval;
  light_intensity : jsval;
  light_castShadow : option bool;
  light_position : option jsval;
}.

Definition buildLight (attrs : gmap string jsval) : light :=
  let color := js_or (prop attrs "color") (lit "16777215") in
  let intensity := js_or (prop attrs "intensity") (lit "1") in
  let '(kind, castShadow) :=
    if is_str (prop attrs "type") "directional" then (DirectionalLight, Some true)
    else if is_str (prop attrs "type") "point" then (PointLight, None)
    else if is_str (prop attrs "type") "spot" then (SpotLight, None)
    else (AmbientLight, None) in
  let pos := js_or (prop attrs "position") (JArr [lit "0"; lit "0"; lit "5"]) in
  {| light_ctor := kind; light_color := color; light_intensity := intensity;
     light_castShadow := castShadow; light_position := Some pos |}.

(** [new THREE.PerspectiveCamera(fov, aspect, near, far)] and its position. *)
Record camera := {
  cam_fov : jsval;
  cam_aspect : float;
  cam_near : jsval;
  cam_far : jsval;
  cam_position : jsval;
}.

Definition buildCamera (clientWidth clientHeight : float) (attrs : gmap string jsval) : camera :=
  {| cam_fov := js_or (prop attrs "fov") (lit "75");
     cam_aspect := (clientWidth / clientHeight)%float;
     cam_near := js_or (prop attrs "near") (lit "0.1");
     cam_far := js_or (prop attrs "far") (lit "1000");
     cam_position := js_or (prop attrs "position") (JArr [lit "0"; lit "0"; lit "5"]) |}.

(** A mesh: its geometry and (cloned) material, and the fields the code
    assigns ([position.set(...pos)] and the like record the spread array). *)
Record mesh := {
  mesh_name : string;
  mesh_geometry : geometry;
  mesh_material : material;
  mesh_position : jsval;
  mesh_rotation : jsval;
  mesh_scale : jsval;
  mesh_castShadow : jsval;
  mesh_receiveShadow : jsval;
}.

Inductive object3d :=
| OMesh (m : mesh)
| OGroup (name : string) (position rotation scale : jsval) (children : list object3d)
| OLight (l : light).

(** One node of [parseElement]'s output: tag, id, attributes and, for a
    group, its children (the [animations] field is not read here). *)
Inductive element_data :=
| ElementData (tag id : string) (attrs : gmap string jsval) (children : option (list element_data)).

(** [buildMesh]: [None] when the geometry or the material is missing; the
    list holds the [this.meshes.set] calls made. *)
Definition buildMesh (geometries : gmap string geometry) (materials : gmap string material)
    (id : string) (attrs : gmap string jsval) : option object3d * list (string * object3d) :=
  let key v := match v with JStr s => Some s | _ => None end in
  match key (prop attrs "geometry") ≫= fun k => geometries !! k,
        key (prop attrs "material") ≫= fun k => materials !! k with
  | Some geom, Some mat =>
      let m := {| mesh_name := id; mesh_geometry := geom; mesh_material := mat;
                  mesh_position := js_or (prop attrs "position") (JArr [lit "0"; lit "0"; lit "0"]);
                  mesh_rotation := js_or (prop attrs "rotation") (JArr [lit "0"; lit "0"; lit "0"]);
                  mesh_scale := js_or (prop attrs "scale") (JArr [lit "1"; lit "1"; lit "1"]);
                  mesh_castShadow := js_or (prop attrs "castShadow") (JBool false);
                  mesh_receiveShadow := js_or (prop attrs "receiveShadow") (JBool false) |} in
      (Some (OMesh m), [(id, OMesh m)])
  | _, _ => (None, [])
  end.

(** [buildElement]: the object built (if any) and the [this.meshes.set]
    calls made, in order.  A group is set in [meshes] before its children are
    built; the map holds the group object itself, so it sees the children
    added afterwards. *)
Fixpoint buildElement (geometries : gmap string geometry) (materials : gmap string material)
    (el : element_data) : option object3d * list (string * object3d) :=
  match el with
  | ElementData tag id attrs children =>
      if String.eqb tag "mesh" then buildMesh geometries materials id attrs
      else if String.eqb tag "group" then
        let built := match children with
                     | Some cs => map (buildElement geometries materials) cs
                     | None => []
                     end in
        let group :=
          OGroup id (js_or (prop attrs "position") (JArr [lit "0"; lit "0"; lit "0"]))
            (js_or (prop attrs "rotation") (JArr [lit "0"; lit "0"; lit "0"]))
            (js_or (prop attrs "scale") (JArr [lit "1"; lit "1"; lit "1"]))
            (omap fst built) in
        (Some group, (id, group) :: concat (map snd built))
      else if String.eqb tag "light" then (Some (OLight (buildLight attrs)), [])
      else (None, [])
  end.

(** [this.meshes] after the given [set] calls. *)
Definition meshes_after (meshes : gmap string object3d) (sets : list (string * object3d))
    : gmap string object3d :=
  fold_left (fun m io => <[io.1 := io.2]> m) sets meshes.

(** A scene entry of the parsed data: [{id, camera, ambientLight, children}]
    with [ambientLight = parseFloat(getAttribute('ambientLight') || '0.5')]. *)
Record scene_data := {
  sd_camera : option string;
  sd_ambientLight : float;
  sd_children : list element_data;
}.

Definition parse_ambientLight (attr : option string) : float :=
  parseFloat (attr_or attr "0.5").

Definition element_id (el : element_data) : string :=
  match el with ElementData _ id _ _ => id end.

Definition element_attrs (el : element_data) : gmap string jsval :=
  match el with ElementData _ _ attrs _ => attrs end.

(** What [buildScene] adds to the scene, in order: the camera found by id
    (if any), the ambient light, then each child object built; with the
    [this.meshes.set] calls made. *)
Inductive scene_object := SCamera (c : camera) | SObject (o : object3d).

Definition buildScene (geometries : gmap string geometry) (materials : gmap string material)
    (clientWidth clientHeight : float) (sd : scene_data)
    : list scene_object * list (string * object3d) :=
  let cam :=
    match List.find (fun c => opt_is (sd_camera sd) (element_id c)) (sd_children sd) with
    | Some c => [SCamera (buildCamera clientWidth clientHeight (element_attrs c))]
    | None => []
    end in
  let ambient :=
    {| light_ctor := AmbientLight; light_color := lit "16777215";
       light_intensity := js_or (JNum (sd_ambientLight sd)) (lit "0.5");
       light_castShadow := None; light_position := None |} in
  let built := map (buildElement geometries materials) (sd_children sd) in
  ((cam ++ [SObject (OLight ambient)] ++ map SObject (omap fst built))%list,
   concat (map snd built)).

(** [setupAnimations]: each parsed track registered in order. *)
Definition setupAnimations (e : engine) (tracks : list (string * animation_data)) : engine :=
  fold_left (fun e track => registerAnimation e track.1 track.2) tracks e.

End Renderer.

(* ------------------------------------------------------------------ *)
(** ** [RotationController] *)

Module Rotation.
Import Parser.
Local Open Scope float_scope.

Record rot3 := { rx : float; ry : float; rz : float }.

(** The [rotation] of the controlled object: an array ([Array.isArray]) or an
    object whose fields [x], [y], [z] the controller writes. *)
Inductive target_rotation :=
| RotArray (xs : list jsval)
| RotObject (x y z : float).

(** [arr[i] = v]: in range it replaces, past the end it extends the array
    (with holes, [undefined], before index [i]). *)
Definition array_set (xs : list jsval) (i : nat) (v : jsval) : list jsval :=
  if (i <? length xs)%nat then <[i := v]> xs
  else xs ++ repeat JUndef (i - length xs) ++ [v].

Record controller := {
  isDragging : bool;
  previousMousePosition : float * float;
  rotation : rot3;
  sensitivity : float;
  targetRotation : target_rotation;
}.

Definition new_controller (target : target_rotation) (sensitivity : float) : controller :=
  {| isDragging := false; previousMousePosition := (0, 0);
     rotation := {| rx := 0; ry := 0; rz := 0 |}; sensitivity := sensitivity;
     targetRotation := target |}.

Definition applyRotation (r : rot3) (t : target_rotation) : target_rotation :=
  match t with
  | RotArray xs =>
      RotArray (array_set (array_set (array_set xs 0 (JNum (rx r))) 1 (JNum (ry r))) 2 (JNum (rz r)))
  | RotObject _ _ _ => RotObject (rx r) (ry r) (rz r)
  end.

Definition with_drag (c : controller) (dragging : bool) (pos : float * float) : controller :=
  {| isDragging := dragging; previousMousePosition := pos; rotation := rotation c;
     sensitivity := sensitivity c; targetRotation := targetRotation c |}.

(** The shared body of [onMouseMove] and [onTouchMove] once dragging. *)
Definition drag_to (c : controller) (clientX clientY : float) : controller :=
  let deltaX := clientX - fst (previousMousePosition c) in
  let deltaY := clientY - snd (previousMousePosition c) in
  let r := {| rx := rx (rotation c) + deltaY * sensitivity c;
              ry := ry (rotation c) + deltaX * sensitivity c;
              rz := rz (rotation c) |} in
  {| isDragging := isDragging c; previousMousePosition := (clientX, clientY);
     rotation := r; sensitivity := sensitivity c;
     targetRotation := applyRotation r (targetRotation c) |}.

Definition onMouseDown (c : controller) (clientX clientY : float) : controller :=
  with_drag c true (clientX, clientY).

Definition onMouseMove (c : controller) (clientX clientY : float) : controller :=
  if negb (isDragging c) then c else drag_to c clientX clientY.

Definition onMouseUp (c : controller) : controller :=
  with_drag c false (previousMousePosition c).

Definition onTouchStart (c : controller) (touches : list (float * float)) : controller :=
  match touches with
  | [t] => with_drag c true t
  | _ => c
  end.

Definition onTouchMove (c : controller) (touches : list (float * float)) : controller :=
  if negb (isDragging c) then c
  else match touches with
       | [t] => drag_to c (fst t) (snd t)
       | _ => c
       end.

Definition onTouchEnd (c : controller) : controller :=
  with_drag c false (previousMousePosition c).

Definition setSensitivity (c : controller) (s : float) : controller :=
  {| isDragging := isDragging c; previousMousePosition := previousMousePosition c;
     rotation := rotation c; sensitivity := s; targetRotation := targetRotation c |}.

Definition reset (c : controller) : controller :=
  let r := {| rx := 0; ry := 0; rz := 0 |} in
  {| isDragging := isDragging c; previousMousePosition := previousMousePosition c;
     rotation := r; sensitivity := sensitivity c;
     targetRotation := applyRotation r (targetRotation c) |}.

(** The canvas events the controller listens to, with their coordinates
    ([event.touches] as a list of [(clientX, clientY)]). *)
Inductive event :=
| MouseDown (clientX clientY : float)
| MouseMove (clientX clientY : float)
| MouseUp
| MouseLeave
| TouchStart (touches : list (float * float))
| TouchMove (touches : list (float * float))
| TouchEnd.

(** [setupEventListeners]: the handler each event runs. *)
Definition dispatch (c : controller) (e : event) : controller :=
  match e with
  | MouseDown x y => onMouseDown c x y
  | MouseMove x y => onMouseMove c x y
  | MouseUp | MouseLeave => onMouseUp c
  | TouchStart ts => onTouchStart c ts
  | TouchMove ts => onTouchMove c ts
  | TouchEnd => onTouchEnd c
  end.

(** Controllers reachable from [new RotationController(canvas, target, s)]
    through events, [setSensitivity] and [reset]. *)
Inductive reachable (t0 : target_rotation) (s0 : float) : controller -> Prop :=
| ctl_init : reachable t0 s0 (new_controller t0 s0)
| ctl_event c e : reachable t0 s0 c -> reachable t0 s0 (dispatch c e)
| ctl_sensitivity c s : reachable t0 s0 c -> reachable t0 s0 (setSensitivity c s)
| ctl_reset c : reachable t0 s0 c -> reachable t0 s0 (reset c).

End Rotation.

(* ------------------------------------------------------------------ *)
(** Views used to state properties of the engine. *)
Module Views.
Import Engine.

(** A track with its [endTime] field replaced. *)
Definition with_endTime (x : option float) (a : anim) : anim :=
  {| targetId := targetId a; attributeName := attributeName a; from := from a;
     to := to a; dur := dur a; begin := begin a; fill := fill a;
     values := values a; keyTimes := keyTimes a; startTime := startTime a;
     duration := duration a; endTime := x; repeatCount := repeatCount a;
     startValue := startValue a; isActive := isActive a; hasStarted := hasStarted a;
     elapsed := elapsed a |}.

(** An engine whose every track has its [endTime] replaced. *)
Definition with_endTimes (x : option float) (e : engine) : engine :=
  {| clock_time := clock_time e; clock_delta := clock_delta e;
     activeAnimations := map (fun ka => (ka.1, with_endTime x ka.2)) (activeAnimations e) |}.

(** Induction on an element tree, through the children of groups. *)
Fixpoint element_data_ind' (P : Renderer.element_data -> Prop)
    (H : forall tag id attrs children,
        match children with Some cs => Forall P cs | None => True end ->
        P (Renderer.ElementData tag id attrs children))
    (el : Renderer.element_data) : P el :=
  match el with
  | Renderer.ElementData tag id attrs children =>
      H tag id attrs children
        (match children as ch
               return match ch with Some cs => Forall P cs | None => True end with
         | Some cs =>
             (fix go (l : list Renderer.element_data) : Forall P l :=
                match l with
                | [] => @List.Forall_nil _ P
                | c :: l' => @List.Forall_cons _ P c l' (element_data_ind' P H c) (go l')
                end) cs
         | None => I
         end)
  end.

(** What every reachable controller satisfies. *)
Definition rot_inv (t0 : Rotation.target_rotation) (c : Rotation.controller) : Prop :=
  Rotation.rz (Rotation.rotation c) = 0%float /\
  (Rotation.targetRotation c = t0 \/
   Rotation.targetRotation c = Rotation.applyRotation (Rotation.rotation c) t0).

(** The number a numeric attribute gives under [attrs.name || dflt]: the
    last attribute with that name parsed by [parseFloat] when that is neither
    0, -0 nor NaN, and the default otherwise. *)
Definition attr_number_or (attributes : list (string * string)) (name dflt : string)
    : Parser.jsval :=
  match List.find (fun nv => String.eqb nv.1 name) (rev attributes) with
  | Some nv =>
      if is_nan (ParseFloat.parseFloat nv.2) || (ParseFloat.parseFloat nv.2 =? 0)%float
      then Parser.JNum (ParseFloat.parseFloat dflt)
      else Parser.JNum (ParseFloat.parseFloat nv.2)
  | None => Parser.JNum (ParseFloat.parseFloat dflt)
  end.

End Views.

(* ------------------------------------------------------------------ *)
(** ** Facts about double arithmetic, from the IEEE-754 specification of
    the primitive floats ([FloatAxioms]) *)

Module FloatFacts.
Local Open Scope float_scope.

Lemma Prim2SF_zero : Prim2SF 0 = S754_zero false.
Proof. reflexivity. Qed.

Lemma Prim2SF_nan : Prim2SF nan = S754_nan.
Proof. reflexivity. Qed.

Lemma Prim2SF_infinity : Prim2SF infinity = S754_infinity false.
Proof. reflexivity. Qed.

Lemma SFcompare_finite_refl s m e :
  SFcompare (S754_finite s m e) (S754_finite s m e) = Some Eq.
Proof.
  destruct s; simpl; rewrite Z.compare_refl, Pos.compare_cont_refl; reflexivity.
Qed.

(** A finite double is a zero or a finite non-zero number. *)
Lemma is_finite_spec x :
  is_finite x = true ->
  (exists s, Prim2SF x = S754_zero s) \/ (exists s m e, Prim2SF x = S754_finite s m e).
Proof.
  unfold is_finite, is_nan, is_infinity.
  rewrite !FloatAxioms.eqb_spec, FloatAxioms.abs_spec, Prim2SF_infinity.
  destruct (Prim2SF x) as [s|s| |s m e]; simpl.
  - intros _. left. eauto.
  - destruct s; discriminate.
  - discriminate.
  - intros _. right. eauto.
Qed.

(** The operands of a finite difference are finite. *)
Lemma sub_finite_operands x y :
  is_finite (y - x) = true ->
  ((exists s, Prim2SF x = S754_zero s) \/ (exists s m e, Prim2SF x = S754_finite s m e)) /\
  ((exists s, Prim2SF y = S754_zero s) \/ (exists s m e, Prim2SF y = S754_finite s m e)).
Proof.
  intros H. apply is_finite_spec in H. rewrite FloatAxioms.sub_spec in H.
  destruct (Prim2SF x) as [sx|sx| |sx mx ex] eqn:Hx;
  destruct (Prim2SF y) as [sy|sy| |sy my ey] eqn:Hy;
  unfold SF64sub in H; simpl in H;
  try (destruct sx); try (destruct sy);
  destruct H as [[? H]|[? [? [? H]]]]; try discriminate;
  split; eauto 6.
Qed.

(** [x + (y - x) * z] is [x] (as [===]) when [z] is a zero and [y - x] is finite. *)
Lemma interp_at_zero x y z s :
  is_finite (y - x) = true -> Prim2SF z = S754_zero s ->
  (x + (y - x) * z =? x) = true.
Proof.
  intros Hfin Hz.
  destruct (sub_finite_operands x y Hfin) as [Hx _].
  apply is_finite_spec in Hfin.
  rewrite FloatAxioms.eqb_spec, FloatAxioms.add_spec, FloatAxioms.mul_spec, Hz.
  destruct Hfin as [[sd Hd]|[sd [md [ed Hd]]]]; rewrite Hd;
  destruct Hx as [[sx Hx]|[sx [mx [ex Hx]]]]; rewrite Hx;
  unfold SF64mul, SF64add; simpl;
  try (destruct sx, sd, s; reflexivity);
  unfold SFeqb; rewrite SFcompare_finite_refl; reflexivity.
Qed.

Lemma sub_self x : is_finite x = true -> x - x = 0.
Proof.
  intros H. apply FloatAxioms.Prim2SF_inj.
  rewrite FloatAxioms.sub_spec, Prim2SF_zero.
  apply is_finite_spec in H.
  destruct H as [[s Hx]|[s [m [e Hx]]]]; rewrite Hx; unfold SF64sub; simpl.
  - destruct s; reflexivity.
  - rewrite Z.sub_diag. reflexivity.
Qed.

Lemma zero_div_pos d : (0 <? d) = true -> 0 / d = 0.
Proof.
  intros H. apply FloatAxioms.Prim2SF_inj.
  rewrite FloatAxioms.ltb_spec, Prim2SF_zero in H.
  rewrite FloatAxioms.div_spec, Prim2SF_zero.
  destruct (Prim2SF d) as [s|s| |s m e]; unfold SFltb in H; simpl in H;
  try discriminate; destruct s; try discriminate; reflexivity.
Qed.

Lemma leb_refl_finite x : is_finite x = true -> (x <=? x) = true.
Proof.
  intros H. apply is_finite_spec in H. rewrite FloatAxioms.leb_spec.
  destruct H as [[s Hx]|[s [m [e Hx]]]]; rewrite Hx; unfold SFleb.
  - reflexivity.
  - rewrite SFcompare_finite_refl. reflexivity.
Qed.


(** An [undefined] operand ([NaN]) makes the interpolation NaN. *)
Lemma interp_nan f p : is_nan (f + (nan - f) * p) = true.
Proof.
  unfold is_nan. rewrite FloatAxioms.eqb_spec, FloatAxioms.add_spec,
    FloatAxioms.mul_spec, FloatAxioms.sub_spec, Prim2SF_nan.
  unfold SF64add, SF64mul, SF64sub; simpl.
  destruct (Prim2SF f), (Prim2SF p); reflexivity.
Qed.

End FloatFacts.

(* ------------------------------------------------------------------ *)
(** ** Facts about the engine *)

Module EngineFacts.
Import Engine.
Local Open Scope float_scope.

Lemma nth_error_lookup {A} (l : list A) (i : nat) : nth_error l i = l !! i.
Proof. revert i; induction l; intros [|i]; simpl; auto. Qed.

Lemma Forall2_imap {A B} (R : B -> A -> Prop) (f : nat -> A -> B) (l : list A) :
  (forall i x, l !! i = Some x -> R (f i x) x) -> Forall2 R (imap f l) l.
Proof.
  revert f; induction l as [|x l IH]; intros f H; simpl; constructor.
  - apply (H 0%nat). reflexivity.
  - apply IH. intros i y Hy. apply (H (S i)). exact Hy.
Qed.

Lemma js_nth_of_nat {A} (l : list A) (i : nat) : js_nth l (Z.of_nat i) = l !! i.
Proof.
  unfold js_nth. replace (Z.of_nat i <? 0)%Z with false by (symmetry; apply Z.ltb_ge; lia).
  rewrite Nat2Z.id. apply nth_error_lookup.
Qed.

(** [find_key_index] with no key time at most [p] keeps its accumulator. *)
Lemma find_key_index_none (l : list float) p s acc :
  (forall j tj, l !! j = Some tj -> (tj <=? p) = false) ->
  find_key_index l p s acc = acc.
Proof.
  revert s acc; induction l as [|kt l IH]; intros s acc H; simpl; [reflexivity|].
  rewrite (H 0%nat kt eq_refl). apply IH. intros j tj Hj. apply (H (S j)). exact Hj.
Qed.

(** [find_key_index] returns the last index whose key time is at most [p]. *)
Lemma find_key_index_last (l : list float) p s acc i ti :
  l !! i = Some ti -> (ti <=? p) = true ->
  (forall j tj, (i < j)%nat -> l !! j = Some tj -> (tj <=? p) = false) ->
  find_key_index l p s acc = (s + Z.of_nat i)%Z.
Proof.
  revert s acc i; induction l as [|kt l IH]; intros s acc i Hi Hle Hafter;
    [discriminate|].
  destruct i as [|i]; simpl in Hi |- *.
  - injection Hi as <-. rewrite Hle. rewrite find_key_index_none; [lia|].
    intros j tj Hj. apply (Hafter (S j)); [lia|exact Hj].
  - rewrite (IH (s + 1)%Z _ i Hi Hle); [lia|].
    intros j tj Hj Hl. apply (Hafter (S j)); [lia|exact Hl].
Qed.

(** The registry an [update_anim] step leaves: the track's cell receives
    [anim_write] when its target exists. *)
Lemma update_anim_registry t a o :
  snd (update_anim t a o) =
  match o !! targetId a with
  | Some obj =>
      match anim_write t a with
      | Some v => <[targetId a := <[attributeName a := v]> obj]> o
      | None => o
      end
  | None => o
  end.
Proof.
  unfold update_anim, anim_write, anim_value, progress_at, apply_anim,
    applyKeyframeAnimation, applySimpleAnimation, setPropertyValue.
  destruct (o !! targetId a) as [obj|]; [|reflexivity].
  destruct (hasStarted a), (startTime a <=? t); simpl;
    destruct (isActive a); simpl; try reflexivity;
    destruct (values a), (keyTimes a); reflexivity.
Qed.

(** [update_anim] keeps the fields that determine what a track writes. *)
Lemma update_anim_static t a o :
  let a' := fst (update_anim t a o) in
  targetId a' = targetId a /\ attributeName a' = attributeName a /\
  anim_value a' = anim_value a /\ startTime a' = startTime a /\ duration a' = duration a.
Proof.
  unfold update_anim, end_of_cycle.
  destruct (o !! targetId a); simpl; [|auto].
  destruct (hasStarted a), (startTime a <=? t); simpl;
    try (destruct (isActive a)); simpl;
    try (destruct (1 <=? _));
    try (destruct (repeat_is_indefinite _));
    try (destruct (repeat_parseInt _) as [n|]; [destruct (1 <? n)%Z|]);
    simpl; auto.
Qed.



Lemma update_anim_absent t a o x :
  o !! x = None -> snd (update_anim t a o) !! x = None.
Proof.
  intros Hx. rewrite update_anim_registry.
  destruct (o !! targetId a) eqn:Ht; [|exact Hx].
  destruct (anim_write t a); [|exact Hx].
  rewrite lookup_insert_ne; [exact Hx|]. congruence.
Qed.


Lemma update_all_absent t m o x :
  o !! x = None -> snd (update_all t m o) !! x = None.
Proof.
  revert o; induction m as [|[k a] m IH]; intros o Hx; simpl; [exact Hx|].
  destruct (update_anim t a o) as [a' o1] eqn:E.
  destruct (update_all t m o1) as [m' o2] eqn:E2. simpl.
  replace o2 with (snd (update_all t m o1)) by (rewrite E2; reflexivity).
  apply IH. replace o1 with (snd (update_anim t a o)) by (rewrite E; reflexivity).
  apply update_anim_absent. exact Hx.
Qed.


Lemma update_all_app t l1 l2 o :
  update_all t (l1 ++ l2) o =
  let '(l1', o1) := update_all t l1 o in
  let '(l2', o2) := update_all t l2 o1 in (l1' ++ l2', o2).
Proof.
  revert o; induction l1 as [|[k a] l1 IH]; intros o; simpl.
  - destruct (update_all t l2 o); reflexivity.
  - destruct (update_anim t a o) as [a' o1].
    rewrite IH.
    destruct (update_all t l1 o1) as [l1' o2].
    destruct (update_all t l2 o2) as [l2' o3]. reflexivity.
Qed.

(** [update_all] keeps every key and every track's pair. *)
Lemma update_all_keys t m o :
  map (fun ka => (ka.1, anim_pair ka.2)) (fst (update_all t m o)) =
  map (fun ka => (ka.1, anim_pair ka.2)) m.
Proof.
  revert o; induction m as [|[k a] m IH]; intros o; simpl; [reflexivity|].
  destruct (update_anim t a o) as [a' o1] eqn:E.
  destruct (update_all t m o1) as [m' o2] eqn:E2. simpl.
  rewrite <- (IH o1), E2. simpl.
  destruct (update_anim_static t a o) as (Ht & Hat & _).
  rewrite E in Ht, Hat. simpl in Ht, Hat.
  unfold anim_pair. rewrite Ht, Hat. reflexivity.
Qed.

Lemma map_set_In k v m k' a' :
  In (k', a') (map_set k v m) -> (k', a') = (k, v) \/ In (k', a') m.
Proof.
  induction m as [|[k1 a1] m IH]; simpl; [intuition|].
  destruct (String.eqb k k1); simpl; intuition.
Qed.

Lemma map_set_in_keys k v m k' :
  In k' (map fst (map_set k v m)) -> k' = k \/ In k' (map fst m).
Proof.
  induction m as [|[k1 a1] m IH]; simpl; [intuition|].
  destruct (String.eqb k k1) eqn:E; simpl; [|intuition].
  apply String.eqb_eq in E. subst. intuition.
Qed.

Lemma map_set_nodup k v m : List.NoDup (map fst m) -> List.NoDup (map fst (map_set k v m)).
Proof.
  induction m as [|[k1 a1] m IH]; simpl; intros Hnd.
  - constructor; [intros []|constructor].
  - inversion Hnd as [|? ? Hnin Hnd']; subst.
    destruct (String.eqb k k1) eqn:E; simpl.
    + apply String.eqb_eq in E. subst. constructor; assumption.
    + constructor; [|apply IH; assumption].
      intros Hin. apply map_set_in_keys in Hin as [Heq|Hin]; [|contradiction].
      subst. rewrite String.eqb_refl in E. discriminate.
Qed.

Lemma map_set_length k v m : In k (map fst m) -> length (map_set k v m) = length m.
Proof.
  induction m as [|[k1 a1] m IH]; simpl; [intros []|intros Hin].
  destruct (String.eqb k k1) eqn:E; simpl; [reflexivity|].
  rewrite IH; [reflexivity|]. destruct Hin as [->|Hin]; [|exact Hin].
  rewrite String.eqb_refl in E. discriminate.
Qed.

Lemma map_get_map_set k v m : map_get k (map_set k v m) = Some v.
Proof.
  induction m as [|[k1 a1] m IH]; simpl.
  - rewrite String.eqb_refl. reflexivity.
  - destruct (String.eqb k k1) eqn:E; simpl.
    + rewrite String.eqb_refl. reflexivity.
    + rewrite E. exact IH.
Qed.

Lemma keyed_map_set m tid v :
  keyed m -> targetId v = tid ->
  keyed (map_set (anim_key tid (attributeName v)) v m).
Proof.
  intros [Hnd Hk] Ht. split; [apply map_set_nodup; exact Hnd|].
  intros k a Hin. apply map_set_In in Hin as [Heq|Hin].
  - injection Heq as -> ->. rewrite Ht. reflexivity.
  - apply Hk. exact Hin.
Qed.

Lemma keyed_update_all t m o : keyed m -> keyed (fst (update_all t m o)).
Proof.
  intros [Hnd Hk]. pose proof (update_all_keys t m o) as Hkeys.
  split.
  - replace (map fst (fst (update_all t m o))) with (map fst m); [exact Hnd|].
    apply (f_equal (map fst)) in Hkeys. rewrite !map_map in Hkeys. simpl in Hkeys.
    symmetry. exact Hkeys.
  - intros k a' Hin.
    assert (Hin' : In (k, anim_pair a') (map (fun ka => (ka.1, anim_pair ka.2)) m)).
    { rewrite <- Hkeys. apply in_map_iff. exists (k, a'). split; [reflexivity|exact Hin]. }
    apply in_map_iff in Hin' as [[k0 a0] [Heq Hin0]]. simpl in Heq.
    injection Heq as -> Hp. rewrite (Hk k a0 Hin0).
    unfold anim_pair in Hp. congruence.
Qed.

Lemma reachable_keyed e : reachable e -> keyed (activeAnimations e).
Proof.
  induction 1 as [|e tid d _ IH|e d objects _ IH].
  - split; [constructor|intros ? ? []].
  - apply (keyed_map_set _ tid (fresh_anim tid d)); [exact IH|reflexivity].
  - unfold update. destruct (update_all _ _ _) as [m' o'] eqn:E. simpl.
    replace m' with (fst (update_all (clock_time e + d) (activeAnimations e) objects))
      by (rewrite E; reflexivity).
    apply keyed_update_all. exact IH.
Qed.

Lemma keyed_pairs_nodup m : keyed m -> List.NoDup (map (fun ka => anim_pair ka.2) m).
Proof.
  intros [Hnd Hk].
  apply (NoDup_map_inv (fun p => anim_key p.1 p.2)).
  rewrite map_map. replace (map _ m) with (map fst m); [exact Hnd|].
  apply map_ext_in. intros [k a] Hin. simpl. apply Hk. exact Hin.
Qed.

(** No entry of a keyed map other than the one under [anim_key tid attr]
    animates [(tid, attr)]. *)
Lemma filter_pair_none m tid attr :
  (forall k a, In (k, a) m -> k = anim_key (targetId a) (attributeName a)) ->
  ~ In (anim_key tid attr) (map fst m) ->
  List.filter (fun ka => String.eqb (targetId ka.2) tid && String.eqb (attributeName ka.2) attr) m = [].
Proof.
  induction m as [|[k a] m IH]; intros Hk Hnin; simpl; [reflexivity|].
  destruct (String.eqb (targetId a) tid) eqn:E1, (String.eqb (attributeName a) attr) eqn:E2;
    simpl; try (apply IH; [intros; apply Hk; right; assumption|simpl in Hnin; tauto]).
  apply String.eqb_eq in E1, E2. exfalso. apply Hnin. left.
  rewrite (Hk k a (or_introl eq_refl)), E1, E2. reflexivity.
Qed.

Lemma filter_map_set_pair m tid attr v :
  keyed m -> In (anim_key tid attr) (map fst m) ->
  targetId v = tid -> attributeName v = attr ->
  List.filter (fun ka => String.eqb (targetId ka.2) tid && String.eqb (attributeName ka.2) attr)
    (map_set (anim_key tid attr) v m) = [(anim_key tid attr, v)].
Proof.
  intros [Hnd Hk] Hin Ht Ha. induction m as [|[k1 a1] m IH]; simpl; [destruct Hin|].
  inversion Hnd as [|? ? Hnin Hnd']; subst.
  destruct (String.eqb (anim_key (targetId v) (attributeName v)) k1) eqn:E; simpl.
  - rewrite !String.eqb_refl. simpl. f_equal.
    apply filter_pair_none; [intros; apply Hk; right; assumption|].
    apply String.eqb_eq in E. rewrite E. exact Hnin.
  - destruct (String.eqb (targetId a1) (targetId v)) eqn:E1,
      (String.eqb (attributeName a1) (attributeName v)) eqn:E2; simpl;
      try (apply IH; [exact Hnd'|intros; apply Hk; right; assumption|
                      simpl in Hin; destruct Hin as [Hin|Hin]; [|exact Hin];
                      rewrite Hin, String.eqb_refl in E; discriminate]).
    apply String.eqb_eq in E1, E2. rewrite (Hk k1 a1 (or_introl eq_refl)), E1, E2 in E.
    rewrite String.eqb_refl in E. discriminate.
Qed.





End EngineFacts.

(* ------------------------------------------------------------------ *)
(** ** Claims *)

Import Engine Scenario.
Local Open Scope float_scope.

(** C1 (counterexample): for [spin] ([dur="8s"], [repeatCount="indefinite"]),
    after [advance(4)] twice rotation.y is 6.28, not about 0; and one more
    [advance(4)], half-way through the second cycle, leaves it at 6.28
    instead of repeating the 3.14 of the first cycle. *)
Lemma spin_does_not_wrap :
  cube_rotation (run [4; 4] spin_engine cube_scene)
    = Some [0; ParseFloat.parseFloat "6.28"; 0] /\
  (1 <? ParseFloat.parseFloat "6.28") = true /\
  cube_rotation (run [4] spin_engine cube_scene)
    = Some [0; ParseFloat.parseFloat "3.14"; 0] /\
  cube_rotation (run [4; 4; 4] spin_engine cube_scene)
    = Some [0; ParseFloat.parseFloat "6.28"; 0].
Proof. repeat split; vm_compute; reflexivity. Qed.

(** C1 (amended): for [spin], [advance(4)] writes rotation.y = 3.14 (half
    the sweep); a further [advance(4)] reaches progress 1 and writes the [to]
    value 6.28, and only then resets the cycle ([hasStarted] false, still
    active). *)
Theorem spin_half_then_to_value :
  cube_rotation (run [4] spin_engine cube_scene)
    = Some [0; ParseFloat.parseFloat "3.14"; 0] /\
  cube_rotation (run [4; 4] spin_engine cube_scene)
    = Some [0; ParseFloat.parseFloat "6.28"; 0] /\
  option_map (fun a => (isActive a, hasStarted a))
    (map_get "cube-rotation" (activeAnimations (fst (run [4; 4] spin_engine cube_scene))))
    = Some (true, false).
Proof. repeat split; vm_compute; reflexivity. Qed.

(** C2 (counterexample): the simple track from 100 to 0.1 evaluated at
    progress 1 writes 100 + (0.1 - 100) * 1 = 0.09999999999999432 in double
    arithmetic, which is not the [to] value 0.1. *)
Lemma shrink_end_not_to :
  simple_value shrink 1 = [ParseFloat.parseFloat "0.09999999999999432"] /\
  (ParseFloat.parseFloat "0.09999999999999432" =? ParseFloat.parseFloat "0.1") = false.
Proof. split; vm_compute; reflexivity. Qed.

(** C3 (counterexample): with [values="0;1"] and [keyTimes="0;1"], progress
    1 selects key index 1 = next index 1, the local progress is 0/0 and the
    written value is NaN, not 1; with [keyTimes="0;0;1"] progress 0 selects
    the largest index 1 and writes [values[1]], not [values[0]]. *)
Lemma keyframe_last_key_nan :
  find_key_index [0; 1] 1 0 0 = 1%Z /\
  match keyframe_value ["0"; "1"] [0; 1] 1 with [v] => is_nan v | _ => false end = true /\
  keyframe_value ["0"; "1"; "5"] [0; 0; 1] 0 = [1].
Proof. repeat split; vm_compute; reflexivity. Qed.

(** C4 (code evaluated at the failing input): [from="0" to="8" dur="1s"
    repeatCount="3"] advanced by 0.5 s per call writes 4, 8, 8, 8 and is then
    inactive with [repeatCount] 1: one real cycle and two extra frames at
    progress 1, since [elapsed] is recomputed from the global clock and the
    reset of [elapsed] and [hasStarted] does not restart the cycle. *)
Theorem repeat3_runs_one_cycle :
  map (fun k => n_x (run (repeat 0.5 k) (registerAnimation init "n" (ramp "3" "1s")) n_scene))
      [1; 2; 3; 4; 5; 6]%nat
    = [Some [4]; Some [8]; Some [8]; Some [8]; Some [8]; Some [8]] /\
  ramp_state (run (repeat 0.5 4) (registerAnimation init "n" (ramp "3" "1s")) n_scene)
    = Some (false, true, RNum 1).
Proof. split; vm_compute; reflexivity. Qed.



(** C7 (counterexample): a descriptor with [from="0,0,0"] and [to="1,1"] is
    registered like any other; evaluated at progress 0.5 its third component
    is NaN. *)
Lemma mismatched_registered :
  activeAnimations (registerAnimation init "n" mismatched)
    = [("n-position"%string, fresh_anim "n" mismatched)] /\
  match anim_value (fresh_anim "n" mismatched) 0.5 with
  | [_; _; z] => is_nan z | _ => false end = true.
Proof. split; vm_compute; reflexivity. Qed.

(** C10 (counterexample): ["."] matches [/^([\d.]+)(s|ms)?$/] but has no
    numeric prefix: [parseTime(".")] is NaN, not a number of seconds. *)
Lemma parseTime_dot_nan :
  time_match "." = Some ("."%string, None) /\ is_nan (parseTime ".") = true.
Proof. split; vm_compute; reflexivity. Qed.

(** C2 (amended): evaluating a simple-mode track at progress 0 writes, under
    the track's attribute, a vector equal component by component ([===]) to
    the parsed [from] vector, provided each [to[i] - from[i]] is a finite
    double.  (At progress 1 the written components are
    [from[i] + (to[i] - from[i]) * 1] rounded to doubles, which need not be
    [to[i]]: see [shrink_end_not_to].) *)
Theorem simple_track_at_progress_zero (obj : node) (a : anim) :
  (values a = None \/ keyTimes a = None) ->
  (forall i f, parseValues (from a) !! i = Some f ->
     exists t, parseValues (to a) !! i = Some t /\ is_finite (t - f) = true) ->
  exists v, apply_anim obj a 0 !! attributeName a = Some v /\
    Forall2 (fun x y => (x =? y) = true) v (parseValues (from a)).
Proof.
  intros Hmode Hfin. exists (simple_value a 0). split.
  - unfold apply_anim.
    destruct Hmode as [H|H]; rewrite H; [|destruct (values a)];
      unfold applySimpleAnimation, setPropertyValue; apply lookup_insert_eq.
  - unfold simple_value. cbv zeta. apply EngineFacts.Forall2_imap.
    intros i f Hf. destruct (Hfin i f Hf) as [t [Ht Htf]].
    rewrite EngineFacts.nth_error_lookup, Ht. simpl.
    apply (FloatFacts.interp_at_zero f t 0 false Htf). reflexivity.
Qed.

Lemma simple_track_at_progress_zero_witness :
  exists v, apply_anim ∅ shrink 0 !! attributeName shrink = Some v /\
    Forall2 (fun x y => (x =? y) = true) v (parseValues (from shrink)).
Proof.
  apply simple_track_at_progress_zero.
  - left. reflexivity.
  - intros i f Hf.
    assert (E : parseValues (from shrink) = [ParseFloat.parseFloat "100"])
      by (vm_compute; reflexivity).
    rewrite E in Hf. destruct i as [|i]; [|destruct i; discriminate].
    injection Hf as <-. exists (ParseFloat.parseFloat "0.1"). split.
    + vm_compute. reflexivity.
    + vm_compute. reflexivity.
Defined.

(** C3 (amended): for a keyframe-mode track, let [keyTimes[i]] be finite,
    every later key time be greater ([keyTimes[j] <= keyTimes[i]] false for
    [j > i]), the width [keyTimes[i+1] - keyTimes[i]] be a positive double,
    and [values[i+1] - values[i]] be finite component by component; then
    evaluating at progress [keyTimes[i]] writes a vector equal ([===]) to
    [values[i]].  This covers every index but the last ([i <= n-2]). *)
Theorem keyframe_track_at_key (obj : node) (a : anim) (vals : list string)
    (kts : list float) (i : nat) (ti tn : float) (vi vn : string) :
  values a = Some vals -> keyTimes a = Some kts ->
  kts !! i = Some ti -> kts !! S i = Some tn ->
  is_finite ti = true ->
  (forall j tj, (i < j)%nat -> kts !! j = Some tj -> (tj <=? ti) = false) ->
  (0 <? tn - ti) = true ->
  vals !! i = Some vi -> vals !! S i = Some vn ->
  (forall k x, parseValues (Some vi) !! k = Some x ->
     exists y, parseValues (Some vn) !! k = Some y /\ is_finite (y - x) = true) ->
  exists v, apply_anim obj a ti !! attributeName a = Some v /\
    Forall2 (fun x y => (x =? y) = true) v (parseValues (Some vi)).
Proof.
  intros Hv Hk Hti Htn Hfin Hafter Hpos Hvi Hvn Hdiff.
  exists (keyframe_value vals kts ti). split.
  - unfold apply_anim. rewrite Hv, Hk.
    unfold applyKeyframeAnimation, setPropertyValue. apply lookup_insert_eq.
  - unfold keyframe_value.
    rewrite (EngineFacts.find_key_index_last kts ti 0 0 i ti Hti
               (FloatFacts.leb_refl_finite ti Hfin) Hafter).
    assert (Hlen : (S i < length kts)%nat) by (apply lookup_lt_Some in Htn; exact Htn).
    replace (Z.min (0 + Z.of_nat i + 1) (Z.of_nat (length kts) - 1))%Z
      with (Z.of_nat (S i)) by lia.
    replace (0 + Z.of_nat i)%Z with (Z.of_nat i) by lia.
    rewrite !EngineFacts.js_nth_of_nat, Hti, Htn, Hvi, Hvn. cbv zeta. cbn [num_of].
    rewrite (FloatFacts.sub_self ti Hfin), (FloatFacts.zero_div_pos _ Hpos).
    apply EngineFacts.Forall2_imap. intros k x Hx.
    destruct (Hdiff k x Hx) as [y [Hy Hyx]].
    rewrite EngineFacts.nth_error_lookup, Hy. simpl.
    apply (FloatFacts.interp_at_zero x y 0 false Hyx). reflexivity.
Qed.

Lemma keyframe_track_at_key_witness :
  exists v, apply_anim ∅ bounce 0.5 !! attributeName bounce = Some v /\
    Forall2 (fun x y => (x =? y) = true) v (parseValues (Some "0,2,0"%string)).
Proof.
  apply (keyframe_track_at_key ∅ bounce ["0,0,0"; "0,2,0"; "0,0,0"]%string [0; 0.5; 1]
           1 0.5 1 "0,2,0" "0,0,0"); try reflexivity.
  - intros j tj Hj Htj.
    destruct j as [|[|[|j]]]; try lia; [|discriminate].
    injection Htj as <-. reflexivity.
  - intros k x Hx.
    assert (E : parseValues (Some "0,2,0"%string) = [0; 2; 0])
      by (vm_compute; reflexivity).
    assert (E' : parseValues (Some "0,0,0"%string) = [0; 0; 0])
      by (vm_compute; reflexivity).
    rewrite E in Hx. rewrite E'.
    destruct k as [|[|[|k]]]; simpl in Hx; try discriminate;
      injection Hx as <-; eexists; (split; [reflexivity|vm_compute; reflexivity]).
Defined.






(** C7 (amended): [registerAnimation] validates nothing.  Whatever the
    descriptor (mismatched [from]/[to] lengths included), the track is stored
    under its key [targetId-attributeName], and in simple mode each component
    of [from] with no counterpart in [to] evaluates to NaN at every
    progress. *)
Theorem register_without_validation (e : engine) (tid : string) (d : animation_data) :
  map_get (anim_key tid (ad_attributeName d)) (activeAnimations (registerAnimation e tid d))
    = Some (fresh_anim tid d) /\
  forall p i f, parseValues (ad_from d) !! i = Some f -> parseValues (ad_to d) !! i = None ->
    exists z, simple_value (fresh_anim tid d) p !! i = Some z /\ is_nan z = true.
Proof.
  split.
  - apply EngineFacts.map_get_map_set.
  - intros p i f Hf Ht. unfold simple_value. cbv zeta. cbn [from to fresh_anim].
    rewrite list_lookup_imap, Hf. cbn [fmap option_fmap option_map].
    eexists. split; [reflexivity|].
    rewrite EngineFacts.nth_error_lookup, Ht. apply FloatFacts.interp_nan.
Qed.

(** C8: a track whose target node is absent is skipped: [update] raises
    nothing, the track stays registered unchanged, and the other tracks end
    in the same states and write the same registry as if the skipped track
    were not registered. *)
Theorem missing_target_skipped (e : engine) (objects : registry) (d : float)
    (l1 l2 : list (string * anim)) (k : string) (a : anim) :
  activeAnimations e = l1 ++ (k, a) :: l2 ->
  objects !! targetId a = None ->
  exists l1' l2',
    activeAnimations (fst (update d e objects)) = l1' ++ (k, a) :: l2' /\
    update d {| clock_time := clock_time e; clock_delta := clock_delta e;
                activeAnimations := l1 ++ l2 |} objects
    = ({| clock_time := clock_time e + d; clock_delta := d;
          activeAnimations := l1' ++ l2' |}, snd (update d e objects)).
Proof.
  intros Hm Ho. unfold update. cbn [clock_time activeAnimations]. rewrite Hm.
  rewrite !EngineFacts.update_all_app.
  pose proof (EngineFacts.update_all_absent (clock_time e + d) l1 objects (targetId a) Ho)
    as Ha.
  destruct (update_all (clock_time e + d) l1 objects) as [l1' o1] eqn:E1.
  cbn [snd] in Ha. cbn [update_all].
  assert (Hs : update_anim (clock_time e + d) a o1 = (a, o1)).
  { unfold update_anim. rewrite Ha. reflexivity. }
  rewrite Hs.
  destruct (update_all (clock_time e + d) l2 o1) as [l2' o2].
  exists l1', l2'. split; reflexivity.
Qed.

Lemma missing_target_skipped_witness :
  let e := registerAnimation (registerAnimation init "ghost" spin) "cube" spin in
  exists l1' l2',
    activeAnimations (fst (update 4 e cube_scene)) =
      l1' ++ ("ghost-rotation"%string, fresh_anim "ghost" spin) :: l2' /\
    update 4 {| clock_time := clock_time e; clock_delta := clock_delta e;
                activeAnimations := [] ++ [("cube-rotation"%string, fresh_anim "cube" spin)] |}
           cube_scene
    = ({| clock_time := clock_time e + 4; clock_delta := 4;
          activeAnimations := l1' ++ l2' |}, snd (update 4 e cube_scene)).
Proof.
  intros e. apply missing_target_skipped; vm_compute; reflexivity.
Defined.

(** C9: in every reachable engine state at most one track state exists per
    (targetId, attributeName) pair, and registering a track for a pair that
    already has one replaces it: the number of tracks is unchanged and the
    only state for the pair is the new track's. *)
Theorem one_state_per_pair (e : engine) :
  reachable e ->
  List.NoDup (map (fun ka => anim_pair ka.2) (activeAnimations e)) /\
  forall tid d,
    (exists k a, In (k, a) (activeAnimations e) /\ anim_pair a = (tid, ad_attributeName d)) ->
    length (activeAnimations (registerAnimation e tid d)) = length (activeAnimations e) /\
    List.filter (fun ka => String.eqb (targetId ka.2) tid
                           && String.eqb (attributeName ka.2) (ad_attributeName d))
      (activeAnimations (registerAnimation e tid d))
    = [(anim_key tid (ad_attributeName d), fresh_anim tid d)].
Proof.
  intros Hr. pose proof (EngineFacts.reachable_keyed e Hr) as Hk. split.
  - apply EngineFacts.keyed_pairs_nodup. exact Hk.
  - intros tid d (k & a & Hin & Hp).
    assert (Hkey : In (anim_key tid (ad_attributeName d)) (map fst (activeAnimations e))).
    { destruct Hk as [_ Hk']. unfold anim_pair in Hp. injection Hp as Ht Hat.
      apply in_map_iff. exists (k, a). split; [|exact Hin].
      cbn [fst]. rewrite (Hk' k a Hin), Ht, Hat. reflexivity. }
    unfold registerAnimation. cbn [activeAnimations]. split.
    + apply EngineFacts.map_set_length. exact Hkey.
    + apply EngineFacts.filter_map_set_pair; [exact Hk|exact Hkey|reflexivity|reflexivity].
Qed.

Lemma one_state_per_pair_witness :
  List.NoDup (map (fun ka => anim_pair ka.2) (activeAnimations spin_engine)) /\
  forall tid d,
    (exists k a, In (k, a) (activeAnimations spin_engine)
                 /\ anim_pair a = (tid, ad_attributeName d)) ->
    length (activeAnimations (registerAnimation spin_engine tid d))
      = length (activeAnimations spin_engine) /\
    List.filter (fun ka => String.eqb (targetId ka.2) tid
                           && String.eqb (attributeName ka.2) (ad_attributeName d))
      (activeAnimations (registerAnimation spin_engine tid d))
    = [(anim_key tid (ad_attributeName d), fresh_anim tid d)].
Proof.
  apply one_state_per_pair. apply reach_register, reach_init.
Defined.

Lemma span_time_body_app (body sfx : string) :
  forallb (fun c => Lex.is_digit c || (c =? ".")%char) (list_ascii_of_string body) = true ->
  In sfx [""; "s"; "ms"]%string ->
  span_time_body (body ++ sfx) = (body, sfx).
Proof.
  intros Hb Hs. induction body as [|c body IH]; simpl.
  - destruct Hs as [<-|[<-|[<-|[]]]]; reflexivity.
  - cbn [list_ascii_of_string forallb] in Hb. apply andb_prop in Hb as [Hc Hb].
    rewrite Hc, (IH Hb). reflexivity.
Qed.

Lemma span_time_body_spec (s : string) :
  s = (fst (span_time_body s) ++ snd (span_time_body s))%string /\
  forallb (fun c => Lex.is_digit c || (c =? ".")%char)
    (list_ascii_of_string (fst (span_time_body s))) = true.
Proof.
  induction s as [|c s IH]; cbn [span_time_body]; [split; reflexivity|].
  match goal with |- context [if ?b then _ else _] => destruct b eqn:Hc end;
    [|split; reflexivity].
  destruct (span_time_body s) as [b r]. cbn [fst snd] in *. destruct IH as [IH1 IH2].
  split; [rewrite IH1; reflexivity|]. cbn [list_ascii_of_string forallb].
  rewrite Hc, IH2. reflexivity.
Qed.

(** C10 (amended): [parseTime] on a string [body ++ sfx], with [body] a
    non-empty run of digits and dots and [sfx] one of [""], ["s"], ["ms"],
    returns [parseFloat body] (divided by 1000 for ["ms"]); on any other
    string it returns 0.  A body starting with ['.'] not followed by a digit
    (such as ["."] or [".s"]) parses to NaN, so such a string yields NaN, not
    a number of seconds. *)
Theorem parseTime_shape :
  (forall body sfx,
     body <> EmptyString ->
     forallb (fun c => Lex.is_digit c || (c =? ".")%char) (list_ascii_of_string body) = true ->
     In sfx [""; "s"; "ms"]%string ->
     parseTime (body ++ sfx)%string =
       if String.eqb sfx "ms" then ParseFloat.parseFloat body / 1000
       else ParseFloat.parseFloat body) /\
  (forall s : string,
     (forall body sfx,
        body <> EmptyString ->
        forallb (fun c => Lex.is_digit c || (c =? ".")%char) (list_ascii_of_string body) = true ->
        In sfx [""; "s"; "ms"]%string ->
        s <> (body ++ sfx)%string) ->
     parseTime s = 0) /\
  (forall rest,
     match rest with String c _ => Lex.is_digit c = false | EmptyString => True end ->
     is_nan (ParseFloat.parseFloat (String "." rest)) = true).
Proof.
  split; [|split].
  - intros body sfx Hne Hb Hs. unfold parseTime, time_match.
    rewrite (span_time_body_app body sfx Hb Hs).
    rewrite (proj2 (String.eqb_neq body EmptyString) Hne).
    destruct Hs as [<-|[<-|[<-|[]]]]; reflexivity.
  - intros s Hn. unfold parseTime, time_match.
    destruct (span_time_body_spec s) as [Hs Hb].
    destruct (span_time_body s) as [b r]. cbn [fst snd] in Hs, Hb.
    destruct (String.eqb b EmptyString) eqn:E0; [reflexivity|].
    apply String.eqb_neq in E0.
    destruct (String.eqb r EmptyString) eqn:E1;
      [apply String.eqb_eq in E1; subst r;
       exfalso; apply (Hn b EmptyString E0 Hb); [left; reflexivity|exact Hs]|].
    destruct (String.eqb r "s") eqn:E2;
      [apply String.eqb_eq in E2; subst r;
       exfalso; apply (Hn b "s"%string E0 Hb); [right; left; reflexivity|exact Hs]|].
    destruct (String.eqb r "ms") eqn:E3;
      [apply String.eqb_eq in E3; subst r;
       exfalso; apply (Hn b "ms"%string E0 Hb); [right; right; left; reflexivity|exact Hs]|].
    reflexivity.
  - intros rest Hr. unfold ParseFloat.parseFloat, ParseFloat.unsigned_prefix.
    destruct rest as [|c r]; [reflexivity|].
    assert (Hdot : Lex.is_digit "." = false) by reflexivity.
    Opaque Lex.is_digit.
    simpl. rewrite Hdot. simpl. rewrite Hr. reflexivity.
    Transparent Lex.is_digit.
Qed.

(* ------------------------------------------------------------------ *)
(** ** Further properties of the engine, the parser, the renderer and the
    rotation controller *)

Module MoreFacts.
Import Engine EngineFacts.

Lemma split_on_length sep s :
  length (split_on sep s) = S (count_occ Ascii.ascii_dec (list_ascii_of_string s) sep).
Proof.
  induction s as [|c s IH]; simpl; [reflexivity|].
  destruct (Ascii.ascii_dec c sep) as [->|Hne].
  - rewrite Ascii.eqb_refl. simpl. rewrite IH. reflexivity.
  - replace (c =? sep)%char with false
      by (symmetry; apply Ascii.eqb_neq; exact Hne).
    destruct (split_on sep s) as [|w ws]; simpl in *; [discriminate|exact IH].
Qed.

Lemma map_get_map_set_ne k v m k' :
  k' <> k -> map_get k' (map_set k v m) = map_get k' m.
Proof.
  intros Hne. induction m as [|[k1 a1] m IH]; simpl.
  - destruct (String.eqb k' k) eqn:E; [apply String.eqb_eq in E; congruence|reflexivity].
  - destruct (String.eqb k k1) eqn:E; simpl.
    + apply String.eqb_eq in E. subst k1.
      destruct (String.eqb k' k) eqn:E'; [apply String.eqb_eq in E'; congruence|reflexivity].
    + rewrite IH. reflexivity.
Qed.

Lemma map_set_new k v m : ~ In k (map fst m) -> map_set k v m = m ++ [(k, v)].
Proof.
  induction m as [|[k1 a1] m IH]; simpl; intros Hn; [reflexivity|].
  destruct (String.eqb k k1) eqn:E.
  - apply String.eqb_eq in E. subst. exfalso. apply Hn. left. reflexivity.
  - rewrite IH; [reflexivity|]. intros Hin. apply Hn. right. exact Hin.
Qed.

Lemma map_set_keys_in k v m : In k (map fst m) -> map fst (map_set k v m) = map fst m.
Proof.
  induction m as [|[k1 a1] m IH]; simpl; [intros []|intros Hin].
  destruct (String.eqb k k1) eqn:E; simpl.
  - apply String.eqb_eq in E. subst. reflexivity.
  - rewrite IH; [reflexivity|]. destruct Hin as [->|Hin]; [|exact Hin].
    rewrite String.eqb_refl in E. discriminate.
Qed.

Lemma map_get_In_nodup k a m :
  List.NoDup (map fst m) -> In (k, a) m -> map_get k m = Some a.
Proof.
  induction m as [|[k1 a1] m IH]; simpl; [intros _ []|].
  intros Hnd Hin. inversion Hnd as [|? ? Hnin Hnd']; subst.
  destruct Hin as [Heq|Hin].
  - injection Heq as <- <-. rewrite String.eqb_refl. reflexivity.
  - destruct (String.eqb k k1) eqn:E.
    + apply String.eqb_eq in E. subst. exfalso. apply Hnin.
      apply in_map_iff. exists (k1, a). auto.
    + apply IH; assumption.
Qed.

End MoreFacts.

Import Engine Scenario.
Local Open Scope float_scope.

(** X1: [parseValues] splits on every comma: a string with [k] commas gives
    [k + 1] numbers (so [''] gives one, NaN), and a missing value gives none. *)
Theorem parseValues_length (s : string) :
  length (parseValues (Some s)) =
    S (count_occ Ascii.ascii_dec (list_ascii_of_string s) ","%char) /\
  parseValues None = [] /\
  (match parseValues (Some ""%string) with [x] => is_nan x | _ => false end) = true.
Proof.
  split; [|split; [reflexivity|vm_compute; reflexivity]].
  simpl. rewrite length_map. apply MoreFacts.split_on_length.
Qed.

(** X2: [registerAnimation] is [Map.set] on the key [targetId-attributeName]:
    every other key keeps its track, a new key is added last, and an existing
    key keeps its place in the iteration order. *)
Theorem registerAnimation_is_map_set (e : engine) (tid : string) (d : animation_data) :
  let k := anim_key tid (ad_attributeName d) in
  let m := activeAnimations (registerAnimation e tid d) in
  map_get k m = Some (fresh_anim tid d) /\
  (forall k', k' <> k -> map_get k' m = map_get k' (activeAnimations e)) /\
  (~ In k (map fst (activeAnimations e)) -> m = activeAnimations e ++ [(k, fresh_anim tid d)]) /\
  (In k (map fst (activeAnimations e)) -> map fst m = map fst (activeAnimations e)).
Proof.
  simpl. split; [apply EngineFacts.map_get_map_set|]. split; [|split].
  - intros k' Hne. apply MoreFacts.map_get_map_set_ne. exact Hne.
  - apply MoreFacts.map_set_new.
  - apply MoreFacts.map_set_keys_in.
Qed.

(** X3: keys are built by string concatenation, so two different
    (targetId, attributeName) pairs can share a key (["a-b"]/["c"] and
    ["a"]/["b-c"]); registering the second evicts the first: afterwards no
    track animates the first pair. *)
Theorem register_key_collision (e : engine) (t1 t2 : string) (d1 d2 : animation_data) :
  reachable e ->
  anim_key t1 (ad_attributeName d1) = anim_key t2 (ad_attributeName d2) ->
  (t1, ad_attributeName d1) <> (t2, ad_attributeName d2) ->
  let m := activeAnimations (registerAnimation (registerAnimation e t1 d1) t2 d2) in
  map_get (anim_key t2 (ad_attributeName d2)) m = Some (fresh_anim t2 d2) /\
  forall k a, In (k, a) m -> anim_pair a <> (t1, ad_attributeName d1).
Proof.
  intros Hr Hkey Hne m. split; [apply EngineFacts.map_get_map_set|].
  intros k a Hin Hp.
  pose proof (EngineFacts.reachable_keyed _
                (reach_register _ t2 d2 (reach_register _ t1 d1 Hr))) as [Hnd Hk].
  pose proof (Hk k a Hin) as Hka. unfold anim_pair in Hp. injection Hp as Ht Ha.
  rewrite Ht, Ha, Hkey in Hka. subst k.
  pose proof (MoreFacts.map_get_In_nodup _ _ _ Hnd Hin) as Hg.
  unfold m, registerAnimation in Hg. cbn [activeAnimations] in Hg.
  rewrite EngineFacts.map_get_map_set in Hg. injection Hg as <-.
  apply Hne. rewrite <- Ht, <- Ha. reflexivity.
Qed.

Lemma register_key_collision_witness :
  let m := activeAnimations (registerAnimation (registerAnimation init "a-b" (ramp "1" "1s"))
                               "a" (data "b-x" (Some "0") (Some "1") "1s" "1" None None)) in
  map_get (anim_key "a" "b-x") m
    = Some (fresh_anim "a" (data "b-x" (Some "0") (Some "1") "1s" "1" None None)) /\
  forall k a, In (k, a) m -> anim_pair a <> ("a-b"%string, "x"%string).
Proof.
  apply (register_key_collision init "a-b" "a" (ramp "1" "1s")
           (data "b-x" (Some "0") (Some "1") "1s" "1" None None)).
  - apply reach_init.
  - reflexivity.
  - intros H. injection H as H1 _. discriminate.
Defined.

(** X4: [setupAnimations] registers the parsed tracks in order: the track
    left under a key is the last one registered with that key (or the
    engine's own when none is). *)
Theorem setupAnimations_last_wins (e : engine) (tracks : list (string * animation_data))
    (k : string) :
  map_get k (activeAnimations (Renderer.setupAnimations e tracks)) =
  fold_left (fun acc tr => if String.eqb k (anim_key tr.1 (ad_attributeName tr.2))
                           then Some (fresh_anim tr.1 tr.2) else acc)
    tracks (map_get k (activeAnimations e)).
Proof.
  unfold Renderer.setupAnimations. revert e.
  induction tracks as [|[tid d] tracks IH]; intros e; simpl; [reflexivity|].
  rewrite IH. f_equal. simpl.
  destruct (String.eqb k (anim_key tid (ad_attributeName d))) eqn:E.
  - apply String.eqb_eq in E. subst. apply EngineFacts.map_get_map_set.
  - apply MoreFacts.map_get_map_set_ne. intros ->. rewrite String.eqb_refl in E. discriminate.
Qed.

(** X5: [update] never adds, removes, reorders or retargets a track: the
    keys and the (targetId, attributeName) pairs of [activeAnimations] are
    the same after the call. *)
Theorem update_keeps_tracks (d : float) (e : engine) (objects : registry) :
  map (fun ka => (ka.1, anim_pair ka.2)) (activeAnimations (fst (update d e objects))) =
  map (fun ka => (ka.1, anim_pair ka.2)) (activeAnimations e).
Proof.
  unfold update.
  pose proof (EngineFacts.update_all_keys (clock_time e + d) (activeAnimations e) objects) as H.
  destruct (update_all _ _ _) as [m' o']. exact H.
Qed.

Module MoreFacts2.
Import Engine EngineFacts Views.
Local Open Scope float_scope.

(** A track left as it is by its step, whatever the registry, is skipped:
    the others see the registry as if it were absent. *)
Lemma inert_track_skip (e : engine) (objects : registry) (d : float)
    (l1 l2 : list (string * anim)) (k : string) (a : anim) :
  activeAnimations e = l1 ++ (k, a) :: l2 ->
  (forall o, update_anim (clock_time e + d) a o = (a, o)) ->
  exists l1' l2',
    activeAnimations (fst (update d e objects)) = l1' ++ (k, a) :: l2' /\
    update d {| clock_time := clock_time e; clock_delta := clock_delta e;
                activeAnimations := l1 ++ l2 |} objects
    = ({| clock_time := clock_time e + d; clock_delta := d;
          activeAnimations := l1' ++ l2' |}, snd (update d e objects)).
Proof.
  intros Hm Hi. unfold update. cbn [clock_time activeAnimations]. rewrite Hm.
  rewrite !update_all_app.
  destruct (update_all (clock_time e + d) l1 objects) as [l1' o1].
  cbn [update_all]. rewrite Hi.
  destruct (update_all (clock_time e + d) l2 o1) as [l2' o2].
  exists l1', l2'. split; reflexivity.
Qed.

Lemma set_timing_with_endTime x a rc ac st el :
  set_timing (with_endTime x a) rc ac st el = with_endTime x (set_timing a rc ac st el).
Proof. reflexivity. Qed.

Lemma end_of_cycle_with_endTime x a p :
  end_of_cycle (with_endTime x a) p = with_endTime x (end_of_cycle a p).
Proof.
  unfold end_of_cycle. cbn [repeatCount isActive hasStarted elapsed with_endTime].
  destruct (1 <=? p); [|reflexivity].
  destruct (repeat_is_indefinite (repeatCount a)); [reflexivity|].
  destruct (repeat_parseInt (repeatCount a)) as [n|]; [|reflexivity].
  destruct (1 <? n)%Z; reflexivity.
Qed.

(** The step of an active track, once its start check is done. *)
Lemma active_step_with_endTime t x b (o : registry) tid obj :
  (let a1 := with_endTime x b in
   if isActive a1 then
     let el := t - startTime a1 in
     let progress := JS.Math_min (el / duration a1) 1 in
     (end_of_cycle (set_timing a1 (repeatCount a1) (isActive a1) (hasStarted a1) el) progress,
      <[tid := apply_anim obj a1 progress]> o)
   else (a1, o)) =
  (with_endTime x (fst (if isActive b then
     let el := t - startTime b in
     let progress := JS.Math_min (el / duration b) 1 in
     (end_of_cycle (set_timing b (repeatCount b) (isActive b) (hasStarted b) el) progress,
      <[tid := apply_anim obj b progress]> o)
   else (b, o))),
   snd (if isActive b then
     let el := t - startTime b in
     let progress := JS.Math_min (el / duration b) 1 in
     (end_of_cycle (set_timing b (repeatCount b) (isActive b) (hasStarted b) el) progress,
      <[tid := apply_anim obj b progress]> o)
   else (b, o))).
Proof.
  cbv zeta. cbn [isActive repeatCount hasStarted startTime duration with_endTime].
  destruct (isActive b); [|reflexivity]. cbn [fst snd].
  rewrite set_timing_with_endTime, end_of_cycle_with_endTime. reflexivity.
Qed.

Lemma update_anim_with_endTime t x a o :
  update_anim t (with_endTime x a) o =
  (with_endTime x (fst (update_anim t a o)), snd (update_anim t a o)).
Proof.
  unfold update_anim. cbn [targetId hasStarted startTime with_endTime].
  destruct (o !! targetId a) as [obj|]; [|reflexivity].
  destruct (negb (hasStarted a) && (startTime a <=? t)).
  - exact (active_step_with_endTime t x (set_started a (getPropertyValue obj (attributeName a)))
             o (targetId a) obj).
  - exact (active_step_with_endTime t x a o (targetId a) obj).
Qed.

Lemma update_all_with_endTime t x m o :
  update_all t (map (fun ka => (ka.1, with_endTime x ka.2)) m) o =
  (map (fun ka => (ka.1, with_endTime x ka.2)) (fst (update_all t m o)), snd (update_all t m o)).
Proof.
  revert o; induction m as [|[k a] m IH]; intros o; [reflexivity|].
  cbn [map update_all fst snd]. rewrite update_anim_with_endTime.
  destruct (update_anim t a o) as [a' o1]. cbn [fst snd].
  rewrite IH. destruct (update_all t m o1) as [m' o2]. reflexivity.
Qed.

Lemma pos_div_zero x : (0 <? x) = true -> x / 0 = infinity.
Proof.
  intros H. apply FloatAxioms.Prim2SF_inj.
  rewrite FloatAxioms.ltb_spec, FloatFacts.Prim2SF_zero in H.
  rewrite FloatAxioms.div_spec, FloatFacts.Prim2SF_zero, FloatFacts.Prim2SF_infinity.
  destruct (Prim2SF x) as [s|s| |s m e]; unfold SFltb in H; simpl in H;
  try discriminate; destruct s; try discriminate; reflexivity.
Qed.

End MoreFacts2.

(** X7: a track that is not active and has either finished or not reached
    its begin time (a begin time that parses to NaN is never reached) is
    skipped by [update]: it stays as it is and the other tracks write what
    they would write without it. *)
Theorem idle_track_skipped (e : engine) (objects : registry) (d : float)
    (l1 l2 : list (string * anim)) (k : string) (a : anim) :
  activeAnimations e = l1 ++ (k, a) :: l2 ->
  isActive a = false ->
  hasStarted a = true \/ (startTime a <=? clock_time e + d) = false ->
  exists l1' l2',
    activeAnimations (fst (update d e objects)) = l1' ++ (k, a) :: l2' /\
    update d {| clock_time := clock_time e; clock_delta := clock_delta e;
                activeAnimations := l1 ++ l2 |} objects
    = ({| clock_time := clock_time e + d; clock_delta := d;
          activeAnimations := l1' ++ l2' |}, snd (update d e objects)).
Proof.
  intros Hm Hact Hw. apply MoreFacts2.inert_track_skip with (1 := Hm).
  intros o. unfold update_anim.
  destruct (o !! targetId a); [|reflexivity].
  assert (Ha1 : negb (hasStarted a) && (startTime a <=? clock_time e + d) = false).
  { destruct Hw as [H|H]; rewrite H; [reflexivity|apply andb_false_r]. }
  rewrite Ha1, Hact. reflexivity.
Qed.

Lemma idle_track_skipped_witness :
  let late := {| ad_attributeName := "x"; ad_from := Some "0"; ad_to := Some "8";
                 ad_dur := "1s"; ad_begin := "5s"; ad_end := None; ad_repeatCount := "1";
                 ad_fill := "freeze"; ad_values := None; ad_keyTimes := None |} in
  let e := registerAnimation init "n" late in
  exists l1' l2',
    activeAnimations (fst (update 1 e n_scene)) =
      l1' ++ ("n-x"%string, fresh_anim "n" late) :: l2' /\
    update 1 {| clock_time := clock_time e; clock_delta := clock_delta e;
                activeAnimations := [] ++ [] |} n_scene
    = ({| clock_time := clock_time e + 1; clock_delta := 1;
          activeAnimations := l1' ++ l2' |}, snd (update 1 e n_scene)).
Proof.
  intros late e.
  apply (idle_track_skipped e n_scene 1 [] [] "n-x" (fresh_anim "n" late)).
  - reflexivity.
  - reflexivity.
  - right. vm_compute. reflexivity.
Defined.

(** X8: the [end] attribute has no effect: replacing the [endTime] of every
    track by any value changes neither what [update] writes nor any other
    field of the tracks it returns. *)
Theorem update_ignores_endTime (x : option float) (d : float) (e : engine) (objects : registry) :
  update d (Views.with_endTimes x e) objects =
  (Views.with_endTimes x (fst (update d e objects)), snd (update d e objects)).
Proof.
  unfold update, Views.with_endTimes. cbn [clock_time activeAnimations].
  rewrite MoreFacts2.update_all_with_endTime.
  destruct (update_all _ _ _) as [m' o']. reflexivity.
Qed.

(** X9: with a zero duration ([dur="0s"]) a track's progress is 1 at every
    clock time after its begin time, so it completes a cycle on its first
    frame; at exactly its begin time the progress is NaN (0 / 0). *)
Theorem zero_duration_progress (time : float) (a : anim) :
  duration a = 0 ->
  ((0 <? time - startTime a) = true -> progress_at time a = 1) /\
  (time - startTime a = 0 -> is_nan (progress_at time a) = true).
Proof.
  intros Hd. unfold progress_at. rewrite Hd. split.
  - intros Hp. rewrite (MoreFacts2.pos_div_zero _ Hp). reflexivity.
  - intros H0. rewrite H0. reflexivity.
Qed.

Lemma zero_duration_progress_witness :
  let a := fresh_anim "n" (ramp "1" "0s") in
  ((0 <? 2 - startTime a) = true -> progress_at 2 a = 1) /\
  (2 - startTime a = 0 -> is_nan (progress_at 2 a) = true).
Proof.
  apply zero_duration_progress. vm_compute. reflexivity.
Defined.

(** X10: a simple-mode track without [from] (a [<set>] element, or an
    [<animate>] with only [to]) sets the animated property to the empty
    array, whatever the progress. *)
Theorem no_from_writes_empty (obj : node) (a : anim) (progress : float) :
  (values a = None \/ keyTimes a = None) -> from a = None ->
  apply_anim obj a progress = <[attributeName a := []]> obj.
Proof.
  intros Hm Hf. unfold apply_anim.
  assert (Hs : applySimpleAnimation obj a progress = <[attributeName a := []]> obj).
  { unfold applySimpleAnimation, setPropertyValue, simple_value. rewrite Hf. reflexivity. }
  destruct Hm as [H|H]; rewrite H; [exact Hs|].
  destruct (values a); exact Hs.
Qed.

Lemma no_from_writes_empty_witness :
  apply_anim (<["x" := [1]]> ∅) (fresh_anim "n" (data "x" None (Some "5") "1s" "1" None None))
    (ParseFloat.parseFloat "0.5")
  = <["x" := []]> (<["x" := [1]]> ∅).
Proof.
  apply no_from_writes_empty; [left|]; reflexivity.
Defined.

Module ParserFacts.
Import ParseFloat Parser.
Local Open Scope string_scope.

(** A plain object filled with [obj[key] = value] in list order holds, for
    each key but [__proto__], the value of the last pair with that key. *)
Lemma fold_obj_set_lookup {A B} (g : string * B -> A) (l : list (string * B))
    (m0 : gmap string A) (name : string) :
  fold_left (fun m nv => obj_set m nv.1 (g nv)) l m0 !! name =
  if String.eqb name "__proto__" then m0 !! name
  else match List.find (fun nv => String.eqb nv.1 name) (rev l) with
       | Some nv => Some (g nv)
       | None => m0 !! name
       end.
Proof.
  induction l as [|x l IH] using rev_ind.
  - simpl. destruct (String.eqb name "__proto__"); reflexivity.
  - rewrite fold_left_app, rev_app_distr. cbn [fold_left rev app List.find].
    unfold obj_set at 1.
    destruct (String.eqb name "__proto__") eqn:Hp.
    + apply String.eqb_eq in Hp. subst name.
      destruct (String.eqb x.1 "__proto__") eqn:Hx; [exact IH|].
      rewrite lookup_insert_ne; [exact IH|].
      intros He. rewrite He, String.eqb_refl in Hx. discriminate.
    + destruct (String.eqb x.1 "__proto__") eqn:Hx.
      * apply String.eqb_eq in Hx.
        destruct (String.eqb x.1 name) eqn:Hn.
        -- apply String.eqb_eq in Hn. rewrite <- Hn, Hx in Hp. discriminate.
        -- exact IH.
      * destruct (String.eqb x.1 name) eqn:Hn.
        -- apply String.eqb_eq in Hn. rewrite Hn, lookup_insert_eq. reflexivity.
        -- rewrite lookup_insert_ne; [exact IH|].
           intros He. rewrite He, String.eqb_refl in Hn. discriminate.
Qed.

Lemma find_key {B} (l : list (string * B)) name nv :
  List.find (fun nv => String.eqb nv.1 name) l = Some nv -> nv.1 = name.
Proof.
  intros H. apply find_some in H. apply String.eqb_eq. exact (proj2 H).
Qed.

Lemma parseAttributes_lookup_last (attributes : list (string * string)) (name : string) :
  parseAttributes attributes !! name =
  if String.eqb name "__proto__" then None
  else option_map (fun nv => parseAttribute name nv.2)
         (List.find (fun nv => String.eqb nv.1 name) (rev attributes)).
Proof.
  unfold parseAttributes.
  rewrite (fold_obj_set_lookup (fun nv => parseAttribute nv.1 nv.2)).
  destruct (String.eqb name "__proto__"); [reflexivity|].
  destruct (List.find _ (rev attributes)) as [nv|] eqn:E; [|reflexivity].
  apply find_key in E. simpl. rewrite E. reflexivity.
Qed.

Lemma parseAnimations_loop_spec id l acc tr :
  parseAnimations_loop id l acc tr =
  ((acc ++ map parseAnimation l)%list, (tr ++ map (fun c => (id, parseAnimation c)) l)%list).
Proof.
  revert acc tr; induction l as [|c l IH]; intros acc tr; simpl.
  - rewrite !app_nil_r. reflexivity.
  - rewrite IH, <- !app_assoc. reflexivity.
Qed.

End ParserFacts.

Import Parser.

(** X11: [parseAttributes] stores each attribute under its name, converted by
    name (position/rotation/scale to arrays of numbers, the numeric names to
    a number, castShadow/receiveShadow/bevelEnabled to [value === 'true'],
    any other to the string); an attribute named [__proto__] is never stored,
    and for a repeated name the last one counts. *)
Theorem parseAttributes_lookup (attributes : list (string * string)) (name : string) :
  parseAttributes attributes !! name =
  if String.eqb name "__proto__" then None
  else option_map (fun nv => parseAttribute name nv.2)
         (List.find (fun nv => String.eqb nv.1 name) (rev attributes)).
Proof. apply ParserFacts.parseAttributes_lookup_last. Qed.

(** X12: [parseMetadata] returns an empty object when there is no metadata
    element, and otherwise maps each tag name (but [__proto__]) to the text of
    the last descendant with that tag name. *)
Theorem parseMetadata_last_wins (metadata : option (list (string * string))) (tag : string) :
  parseMetadata metadata !! tag =
  match metadata with
  | None => None
  | Some els =>
      if String.eqb tag "__proto__" then None
      else option_map snd (List.find (fun te => String.eqb te.1 tag) (rev els))
  end.
Proof.
  destruct metadata as [els|]; [|reflexivity].
  unfold parseMetadata. rewrite (ParserFacts.fold_obj_set_lookup snd).
  destruct (String.eqb tag "__proto__"); [reflexivity|].
  destruct (List.find _ (rev els)); reflexivity.
Qed.

(** X13: [parseAnimations] returns one parsed animation per [animate],
    [animateTransform] or [set] child, in document order, ignoring the other
    children, and appends exactly these, each paired with the element's id,
    to [animationTracks]. *)
Theorem parseAnimations_spec (id : string) (children : list element)
    (animationTracks : list (string * parsed_animation)) :
  parseAnimations id children animationTracks =
  (map parseAnimation (List.filter (fun c => is_animation_tag (tagName c)) children),
   (animationTracks ++
      map (fun c => (id, parseAnimation c))
        (List.filter (fun c => is_animation_tag (tagName c)) children))%list).
Proof. unfold parseAnimations. apply ParserFacts.parseAnimations_loop_spec. Qed.

(** X14: an animation element whose [dur], [begin], [repeatCount] or [fill]
    attribute is missing or empty gets the defaults: a duration of 1 second
    and a begin time of 0 as [parseTime] reads them, one repetition and
    [freeze]. *)
Theorem parseAnimation_defaults (el : element) :
  let pa := parseAnimation el in
  (getAttribute el "dur" = None \/ getAttribute el "dur" = Some "" ->
     parseTime (pa_dur pa) = 1%float) /\
  (getAttribute el "begin" = None \/ getAttribute el "begin" = Some "" ->
     parseTime (pa_begin pa) = 0%float) /\
  (getAttribute el "repeatCount" = None \/ getAttribute el "repeatCount" = Some "" ->
     pa_repeatCount pa = "1") /\
  (getAttribute el "fill" = None \/ getAttribute el "fill" = Some "" ->
     pa_fill pa = "freeze").
Proof.
  cbn zeta. unfold parseAnimation. cbn [pa_dur pa_begin pa_repeatCount pa_fill].
  repeat split; intros [-> | ->]; vm_compute; reflexivity.
Qed.

Module RendererFacts.
Import ParseFloat Engine Parser Renderer.
Local Open Scope string_scope.

(** A numeric attribute read back from [parseAttributes] is [undefined] or a
    number. *)
Lemma number_prop (attributes : list (string * string)) (name : string) :
  includes vector_attrs name = false -> includes number_attrs name = true ->
  String.eqb name "__proto__" = false ->
  prop (parseAttributes attributes) name = JUndef \/
  exists x, prop (parseAttributes attributes) name = JNum x.
Proof.
  intros Hv Hn Hp. unfold prop. rewrite ParserFacts.parseAttributes_lookup_last, Hp.
  destruct (List.find _ _) as [nv|]; [right|left; reflexivity].
  simpl. unfold parseAttribute. rewrite Hv, Hn. eexists; reflexivity.
Qed.

(** An attribute with none of the special names is read back as its string. *)
Lemma string_prop_or (attributes : list (string * string)) (name : string) (d : jsval) :
  includes vector_attrs name = false -> includes number_attrs name = false ->
  includes bool_attrs name = false -> String.eqb name "__proto__" = false ->
  js_or (prop (parseAttributes attributes) name) d =
  match List.find (fun nv => String.eqb nv.1 name) (rev attributes) with
  | Some nv => if String.eqb nv.2 "" then d else JStr nv.2
  | None => d
  end.
Proof.
  intros Hv Hn Hb Hp. unfold prop. rewrite ParserFacts.parseAttributes_lookup_last, Hp.
  destruct (List.find _ _) as [nv|]; [|reflexivity].
  simpl. unfold parseAttribute. rewrite Hv, Hn, Hb.
  unfold js_or. simpl. destruct (String.eqb nv.2 ""); reflexivity.
Qed.

Lemma js_or_truthy_num (v : jsval) (d : float) :
  (v = JUndef \/ exists x, v = JNum x) -> truthy (JNum d) = true ->
  exists x, js_or v (JNum d) = JNum x /\ truthy (js_or v (JNum d)) = true.
Proof.
  intros [->|[x ->]] Hd; unfold js_or; [eexists; split; [reflexivity|exact Hd]|].
  destruct (truthy (JNum x)) eqn:Hx; eexists; split; try reflexivity; assumption.
Qed.

Lemma js_or_num_not_nan (v : jsval) (d : float) :
  (v = JUndef \/ exists x, v = JNum x) -> is_nan d = false ->
  exists x, js_or v (JNum d) = JNum x /\ is_nan x = false.
Proof.
  intros [->|[x ->]] Hd; unfold js_or; [eexists; split; [reflexivity|exact Hd]|].
  destruct (truthy (JNum x)) eqn:Hx; eexists; split; try reflexivity; [|exact Hd].
  simpl in Hx. destruct (is_nan x); [discriminate|reflexivity].
Qed.

Lemma numeric_or_truthy (attributes : list (string * string)) (name d : string) :
  includes vector_attrs name = false -> includes number_attrs name = true ->
  String.eqb name "__proto__" = false -> truthy (lit d) = true ->
  exists x, js_or (prop (parseAttributes attributes) name) (lit d) = JNum x /\
            truthy (js_or (prop (parseAttributes attributes) name) (lit d)) = true.
Proof.
  intros Hv Hn Hp Hd. apply js_or_truthy_num; [|exact Hd].
  apply number_prop; assumption.
Qed.

Lemma numeric_or_not_nan (attributes : list (string * string)) (name d : string) :
  includes vector_attrs name = false -> includes number_attrs name = true ->
  String.eqb name "__proto__" = false -> is_nan (parseFloat d) = false ->
  exists x, js_or (prop (parseAttributes attributes) name) (lit d) = JNum x /\ is_nan x = false.
Proof.
  intros Hv Hn Hp Hd. apply js_or_num_not_nan; [|exact Hd].
  apply number_prop; assumption.
Qed.

Lemma buildElement_sets_objects g m (el : element_data) :
  forall id o, In (id, o) (snd (buildElement g m el)) ->
  (exists ms, o = OMesh ms /\ mesh_name ms = id) \/
  (exists p r s cs, o = OGroup id p r s cs).
Proof.
  induction el as [tag id0 attrs children IH] using Views.element_data_ind'.
  intros id o Hin. simpl in Hin.
  destruct (String.eqb tag "mesh").
  - unfold buildMesh in Hin.
    destruct (_ ≫= _) as [geom|]; [|contradiction].
    destruct (_ ≫= _) as [mat|]; [|contradiction].
    simpl in Hin. destruct Hin as [Heq|[]]. injection Heq as <- <-.
    left. eexists; split; reflexivity.
  - destruct (String.eqb tag "group").
    + simpl in Hin. destruct Hin as [Heq|Hin].
      * injection Heq as <- <-. right. do 4 eexists. reflexivity.
      * apply in_concat in Hin. destruct Hin as [l [Hl Hin]].
        apply in_map_iff in Hl. destruct Hl as [b [<- Hb]].
        destruct children as [cs|]; [|contradiction].
        apply in_map_iff in Hb. destruct Hb as [c [<- Hc]].
        rewrite List.Forall_forall in IH. exact (IH c Hc id o Hin).
    + destruct (String.eqb tag "light"); contradiction.
Qed.

Lemma numeric_or_eq (attributes : list (string * string)) (name d : string) :
  includes vector_attrs name = false -> includes number_attrs name = true ->
  String.eqb name "__proto__" = false ->
  js_or (prop (parseAttributes attributes) name) (lit d) = Views.attr_number_or attributes name d.
Proof.
  intros Hv Hn Hp. unfold prop, Views.attr_number_or.
  rewrite ParserFacts.parseAttributes_lookup_last, Hp.
  destruct (List.find _ _) as [nv|]; [|reflexivity].
  simpl. unfold parseAttribute. rewrite Hv, Hn. unfold js_or, truthy.
  destruct (is_nan _), (_ =? 0)%float; reflexivity.
Qed.

Lemma find_first {A} (f : A -> bool) l1 c l2 :
  f c = true -> (forall c', In c' l1 -> f c' = false) ->
  List.find f (l1 ++ c :: l2) = Some c.
Proof.
  intros Hc H1. induction l1 as [|x l1 IH]; simpl; [rewrite Hc; reflexivity|].
  rewrite (H1 x (or_introl eq_refl)). apply IH. intros c' Hin. apply H1. right. exact Hin.
Qed.

End RendererFacts.

Import Renderer.

(** X15: each number [buildMaterials] reads with a default is the parsed
    attribute when that is neither 0, -0 nor NaN, and the default otherwise:
    a standard material's [metalness] and [emissiveIntensity] fall back to 0
    and are never NaN, its [roughness] falls back to 0.5 (so a roughness of 0
    becomes 0.5) and is never 0 or NaN, and a phong material's [shininess]
    falls back to 100 (so 0 becomes 100) and is never 0 or NaN. *)
Theorem material_numbers (attributes : list (string * string)) :
  match buildMaterial "standard" (parseAttributes attributes) with
  | MeshStandardMaterial _ metalness roughness _ emissiveIntensity =>
      metalness = Views.attr_number_or attributes "metalness" "0" /\
      roughness = Views.attr_number_or attributes "roughness" "0.5" /\
      emissiveIntensity = Views.attr_number_or attributes "emissiveIntensity" "0" /\
      (exists x, metalness = JNum x /\ is_nan x = false) /\
      (exists x, roughness = JNum x /\ truthy roughness = true) /\
      (exists x, emissiveIntensity = JNum x /\ is_nan x = false)
  | _ => False
  end /\
  match buildMaterial "phong" (parseAttributes attributes) with
  | MeshPhongMaterial _ _ shininess =>
      shininess = Views.attr_number_or attributes "shininess" "100" /\
      exists x, shininess = JNum x /\ truthy shininess = true
  | _ => False
  end.
Proof.
  unfold buildMaterial. cbn [String.eqb Ascii.eqb Bool.eqb andb].
  split; [split; [|split; [|split; [|split; [|split]]]]|split].
  all: first [ apply RendererFacts.numeric_or_eq
             | apply RendererFacts.numeric_or_not_nan
             | apply RendererFacts.numeric_or_truthy ]; vm_compute; reflexivity.
Qed.

(** X16: [buildLight]'s intensity is the parsed [intensity] attribute when
    that is neither 0, -0 nor NaN, and 1 otherwise (so an intensity of 0
    becomes 1), hence never 0 or NaN; a position is always set, and shadows
    are turned on exactly for a light of type [directional]. *)
Theorem buildLight_fields (attributes : list (string * string)) :
  let l := buildLight (parseAttributes attributes) in
  light_intensity l = Views.attr_number_or attributes "intensity" "1" /\
  (exists x, light_intensity l = JNum x /\ truthy (light_intensity l) = true) /\
  (exists p, light_position l = Some p) /\
  (light_castShadow l = Some true <->
   prop (parseAttributes attributes) "type" = JStr "directional").
Proof.
  cbn zeta. unfold buildLight. split; [|split; [|split]].
  - destruct (is_str _ "directional"); [|destruct (is_str _ "point");
      [|destruct (is_str _ "spot")]]; cbn [light_intensity];
    apply RendererFacts.numeric_or_eq; vm_compute; reflexivity.
  - destruct (is_str _ "directional"); [|destruct (is_str _ "point");
      [|destruct (is_str _ "spot")]]; cbn [light_intensity];
    apply RendererFacts.numeric_or_truthy; vm_compute; reflexivity.
  - destruct (is_str _ "directional"); [|destruct (is_str _ "point");
      [|destruct (is_str _ "spot")]]; eexists; reflexivity.
  - unfold is_str.
    destruct (prop (parseAttributes attributes) "type") as [| |s| |] eqn:Ht;
      cbn [light_castShadow]; try (split; [discriminate|intros H; discriminate H]).
    destruct (String.eqb s "directional") eqn:Hd.
    + apply String.eqb_eq in Hd. subst s. split; reflexivity.
    + split.
      * destruct (String.eqb s "point"); [discriminate|].
        destruct (String.eqb s "spot"); discriminate.
      * intros H. injection H as ->. rewrite String.eqb_refl in Hd. discriminate.
Qed.

(** X17: [buildScene] adds, in order, the camera, then an ambient light, then
    the objects built from the children.  The camera is built from the first
    child whose id is the scene's [camera] attribute, whatever its tag, and
    there is none when no child has that id.  The ambient light's intensity
    is the scene's [ambientLight] when that is neither 0, -0 nor NaN, and 0.5
    otherwise (so an [ambientLight] of 0 or NaN becomes 0.5), hence never 0
    or NaN. *)
Theorem buildScene_layout (geometries : gmap string geometry)
    (materials : gmap string material) (w h : float) (sd : scene_data) :
  exists cams amb,
    fst (buildScene geometries materials w h sd) =
      (cams ++ SObject (OLight amb) ::
         map SObject (omap fst (map (buildElement geometries materials) (sd_children sd))))%list /\
    (forall l1 c l2, sd_children sd = (l1 ++ c :: l2)%list ->
       opt_is (sd_camera sd) (element_id c) = true ->
       (forall c', In c' l1 -> opt_is (sd_camera sd) (element_id c') = false) ->
       cams = [SCamera (buildCamera w h (element_attrs c))]) /\
    ((forall c, In c (sd_children sd) -> opt_is (sd_camera sd) (element_id c) = false) ->
       cams = []) /\
    light_ctor amb = AmbientLight /\
    light_intensity amb =
      (if is_nan (sd_ambientLight sd) || (sd_ambientLight sd =? 0)%float
       then lit "0.5" else JNum (sd_ambientLight sd)) /\
    (exists x, light_intensity amb = JNum x /\ truthy (light_intensity amb) = true).
Proof.
  unfold buildScene. cbn [fst].
  eexists; eexists; split; [reflexivity|].
  split; [|split; [|split; [reflexivity|split]]].
  - intros l1 c l2 Hch Hc H1. rewrite Hch, (RendererFacts.find_first _ l1 c l2 Hc H1).
    reflexivity.
  - intros Hn. destruct (List.find _ (sd_children sd)) as [c|] eqn:Hf; [|reflexivity].
    apply find_some in Hf. rewrite (Hn c (proj1 Hf)) in Hf. destruct Hf as [_ Hf].
    discriminate.
  - cbn [light_intensity]. unfold js_or, truthy.
    destruct (is_nan _), (_ =? 0)%float; reflexivity.
  - cbn [light_intensity].
    apply RendererFacts.js_or_truthy_num; [right; eexists; reflexivity|].
    vm_compute; reflexivity.
Qed.

(** X18: [buildCamera]'s field of view, near plane and far plane are the
    parsed attributes when those are neither 0, -0 nor NaN, and 75, 0.1 and
    1000 otherwise (so 0 becomes 75, 0.1 and 1000), hence never 0 or NaN; the
    aspect ratio is the canvas width over its height. *)
Theorem buildCamera_fields (w h : float) (attributes : list (string * string)) :
  let c := buildCamera w h (parseAttributes attributes) in
  cam_fov c = Views.attr_number_or attributes "fov" "75" /\
  cam_near c = Views.attr_number_or attributes "near" "0.1" /\
  cam_far c = Views.attr_number_or attributes "far" "1000" /\
  (exists x, cam_fov c = JNum x /\ truthy (cam_fov c) = true) /\
  (exists x, cam_near c = JNum x /\ truthy (cam_near c) = true) /\
  (exists x, cam_far c = JNum x /\ truthy (cam_far c) = true) /\
  cam_aspect c = (w / h)%float.
Proof.
  cbn zeta. unfold buildCamera. cbn [cam_fov cam_near cam_far cam_aspect].
  split; [|split; [|split; [|split; [|split; [|split; [|reflexivity]]]]]].
  all: first [ apply RendererFacts.numeric_or_eq
             | apply RendererFacts.numeric_or_truthy ]; vm_compute; reflexivity.
Qed.

(** X19: the box sizes reach [BoxGeometry] as the attribute strings, never
    parsed to numbers: an attribute [width='0'] is passed as the string '0'
    (not replaced by 1), and only a missing or empty one becomes 1. *)
Theorem box_dimensions (attributes : list (string * string)) :
  let dim k := match List.find (fun nv => String.eqb nv.1 k) (rev attributes) with
               | Some nv => if String.eqb nv.2 "" then lit "1" else JStr nv.2
               | None => lit "1"
               end in
  buildGeometry (Some "box") (parseAttributes attributes) =
  BoxGeometry (dim "width") (dim "height") (dim "depth").
Proof.
  cbn zeta. unfold buildGeometry. cbn [opt_is String.eqb Ascii.eqb Bool.eqb andb].
  rewrite !RendererFacts.string_prop_or by (vm_compute; reflexivity). reflexivity.
Qed.

(** X20: the only objects [buildElement] stores in [meshes] are meshes and
    groups, each under its own name (lights and cameras are never stored),
    and a mesh whose geometry or material is not found is neither built nor
    stored. *)
Theorem buildElement_registers (geometries : gmap string geometry)
    (materials : gmap string material) (el : element_data) :
  (forall id o, In (id, o) (snd (buildElement geometries materials el)) ->
     (exists ms, o = OMesh ms /\ mesh_name ms = id) \/
     (exists p r s cs, o = OGroup id p r s cs)) /\
  (forall id attrs children,
     (match prop attrs "geometry" with JStr k => geometries !! k | _ => None end = None \/
      match prop attrs "material" with JStr k => materials !! k | _ => None end = None) ->
     buildElement geometries materials (ElementData "mesh" id attrs children) = (None, [])).
Proof.
  split; [apply RendererFacts.buildElement_sets_objects|].
  intros id attrs children Hm. simpl. unfold buildMesh.
  destruct (prop attrs "geometry") as [| |kg| |]; simpl in Hm |- *;
  [reflexivity|reflexivity| |reflexivity|reflexivity].
  destruct (geometries !! kg); [|reflexivity]. simpl.
  destruct Hm as [Hm|Hm]; [discriminate|].
  destruct (prop attrs "material") as [| |km| |]; simpl in Hm |- *; try reflexivity.
  rewrite Hm. reflexivity.
Qed.

Module RotationFacts.
Import Parser Rotation.
Local Open Scope float_scope.

Lemma applyRotation_array r xs :
  applyRotation r (RotArray xs) =
  RotArray (JNum (rx r) :: JNum (ry r) :: JNum (rz r) :: drop 3 xs).
Proof. destruct xs as [|a [|b [|c rest]]]; reflexivity. Qed.

Lemma applyRotation_twice r r' t :
  applyRotation r (applyRotation r' t) = applyRotation r t.
Proof.
  destruct t as [xs|x y z]; [|reflexivity].
  rewrite !applyRotation_array. reflexivity.
Qed.

Lemma drag_to_inv t0 c x y : Views.rot_inv t0 c -> Views.rot_inv t0 (drag_to c x y).
Proof.
  intros [Hz Ht]. unfold Views.rot_inv, drag_to. cbn [rotation targetRotation rz].
  split; [exact Hz|right].
  destruct Ht as [-> | ->]; [reflexivity|apply applyRotation_twice].
Qed.

Lemma dispatch_inv t0 c e : Views.rot_inv t0 c -> Views.rot_inv t0 (dispatch c e).
Proof.
  intros H. destruct e as [x y|x y| | |ts|ts|]; simpl.
  - exact H.
  - unfold onMouseMove. destruct (isDragging c); [apply drag_to_inv|]; exact H.
  - exact H.
  - exact H.
  - unfold onTouchStart. destruct ts as [|t [|]]; exact H.
  - unfold onTouchMove. destruct (isDragging c); [|exact H].
    destruct ts as [|t [|]]; [exact H|apply drag_to_inv; exact H|exact H].
  - exact H.
Qed.

End RotationFacts.

Import Rotation.

(** X21: in every state of a [RotationController] the [z] rotation is 0, and
    the target's rotation is either still the one it had at construction or
    exactly the controller's own rotation: the controller never reads the
    target's rotation, so its first write replaces an initial x/y rotation of
    the object by angles counted from 0. *)
Theorem controller_rotation_invariant (t0 : target_rotation) (s0 : float) (c : controller) :
  reachable t0 s0 c ->
  rz (rotation c) = 0 /\
  (targetRotation c = t0 \/ targetRotation c = applyRotation (rotation c) t0).
Proof.
  intros Hr. change (Views.rot_inv t0 c).
  induction Hr as [|c e Hr IH|c s Hr IH|c Hr IH].
  - split; [reflexivity|left; reflexivity].
  - apply RotationFacts.dispatch_inv. exact IH.
  - exact IH.
  - unfold Views.rot_inv, reset. cbn [rotation targetRotation rz].
    split; [reflexivity|right]. destruct IH as [_ [-> | ->]];
    [reflexivity|apply RotationFacts.applyRotation_twice].
Qed.

Lemma controller_rotation_invariant_witness :
  let c := dispatch (dispatch (new_controller (RotObject 1 2 3) 1) (MouseDown 0 0)) (MouseMove 3 4) in
  rz (rotation c) = 0 /\
  (targetRotation c = RotObject 1 2 3 \/ targetRotation c = applyRotation (rotation c) (RotObject 1 2 3)).
Proof.
  apply (controller_rotation_invariant (RotObject 1 2 3) 1).
  apply ctl_event, ctl_event, ctl_init.
Defined.

(** X22: while no drag is in progress, every event other than a mouse
    press or a single-finger touch start (moves, releases, mouse leaving the
    canvas, multi-finger touches) leaves the controller as it is. *)
Theorem idle_events_ignored (c : controller) (evs : list event) :
  isDragging c = false ->
  Forall (fun e => match e with
                   | MouseDown _ _ => False
                   | TouchStart [_] => False
                   | _ => True
                   end) evs ->
  fold_left dispatch evs c = c.
Proof.
  intros Hd Hevs. induction Hevs as [|e evs He _ IH]; [reflexivity|].
  simpl. replace (dispatch c e) with c; [exact IH|].
  destruct c as [dr pos r s t]. cbn [isDragging] in Hd. subst dr.
  destruct e as [x y|x y| | |ts|ts|]; try reflexivity; try contradiction.
  destruct ts as [|p [|]]; [reflexivity|contradiction|reflexivity].
Qed.

Lemma idle_events_ignored_witness :
  let c := new_controller (RotObject 1 2 3) 1 in
  fold_left dispatch [MouseMove 5 5; MouseUp; MouseLeave; TouchStart []; TouchStart [(1, 1); (2, 2)];
                      TouchMove [(1, 1)]; TouchEnd] c = c.
Proof.
  apply idle_events_ignored; [reflexivity|].
  repeat constructor.
Defined.

(** X23: on an array rotation the controller overwrites entries 0, 1 and 2
    with its x, y and z angles and keeps the entries after them; a shorter
    array is extended to three entries. *)
Theorem applyRotation_on_array (r : rot3) (xs : list jsval) :
  applyRotation r (RotArray xs) =
  RotArray (JNum (rx r) :: JNum (ry r) :: JNum (rz r) :: drop 3 xs).
Proof. apply RotationFacts.applyRotation_array. Qed.
